(** * cryptii: Pipe and Setting

    A shallow embedding of the two classes of the repository,
    [Setting] (src/Setting.js) and [Pipe] (the Pipe class importing
    ./Brick and ./View/Pipe), with the properties of their
    specification stated over the embedding.

    JavaScript objects are modelled by their address (identity), mutable
    fields by explicit state passing, [throw] by a result in a sum type,
    and calls on collaborators outside the two classes (the delegate of a
    Setting, the View surface, the Brick class) by events, by a type
    class, or by parameters. *)

From stdpp Require Import gmap strings list sorting.
From Stdlib Require Import ZArith Lia.

Open Scope string_scope.
Open Scope list_scope.
Open Scope stdpp_scope.
Open Scope Z_scope.

(** ** JavaScript values and the operators the two classes use *)
Module JS.

(** Address of an object: two references are the same object iff the
    addresses are equal. *)
Definition Ref := nat.

(** Runtime values. Numbers are the integers plus [NaN]: the classes
    only test numbers for truthiness, [typeof] and strict equality, and
    [NaN] is the one number that is not strictly equal to itself; strict
    equality identifies the two zeros, so one zero is kept. *)
Inductive Value :=
| VUndefined
| VNull
| VBool (b : bool)
| VNumber (n : Z)
| VNaN
| VString (s : string)
| VObject (r : Ref)
| VFunction (r : Ref).

#[global] Instance Value_eq_dec : EqDecision Value.
Proof. solve_decision. Defined.

(** [typeof v] *)
Definition typeof (v : Value) : string :=
  match v with
  | VUndefined => "undefined"
  | VNull => "object"
  | VBool _ => "boolean"
  | VNumber _ | VNaN => "number"
  | VString _ => "string"
  | VObject _ => "object"
  | VFunction _ => "function"
  end.

(** [ToBoolean v]: the falsy values are undefined, null, false, 0, NaN
    and the empty string. *)
Definition truthy (v : Value) : bool :=
  match v with
  | VUndefined | VNull | VNaN => false
  | VBool b => b
  | VNumber n => negb (Z.eqb n 0)
  | VString s => negb (String.eqb s "")
  | VObject _ | VFunction _ => true
  end.

(** [a || b] *)
Definition or_else (a b : Value) : Value := if truthy a then a else b.

(** [a === b] *)
Definition strict_eq (a b : Value) : bool :=
  match a, b with
  | VNaN, _ | _, VNaN => false
  | _, _ => bool_decide (a = b)
  end.

(** [a !== b] *)
Definition strict_neq (a b : Value) : bool := negb (strict_eq a b).

(** What a [throw] carries: the constructor and the message. The
    message of a TypeError of the engine is the engine's wording. *)
Inductive Exception :=
| Error (message : string)
| TypeError (message : string).

(** Outcome of a call that may throw. *)
Definition Completion (A : Type) : Type := Exception + A.

Definition returns {A} (c : Completion A) : bool :=
  match c with inr _ => true | inl _ => false end.

Definition throws {A} (c : Completion A) : bool := negb (returns c).

End JS.
Import JS.

(** ** src/Setting.js *)
Module Setting.

(** The fields of a Setting object. The delegate is [?Object]: [None]
    is [null]. *)
Record Fields := mkFields {
  _name : string;
  _value : Value;
  _valid : bool;
  _delegate : option Ref
}.

(** The random number generator of ./Random, which the class only
    constructs and hands to the randomize callback. *)
Inductive Random := DefaultRandom | GivenRandom (r : Ref).

(** A Setting: its fields and the three callbacks of the spec object,
    [None] for [null]. A callback receives the Setting itself; it is
    handed the fields, which is all it can read through the getters. *)
Record Setting := mkSetting {
  fields : Fields;
  _validateValueCallback : option (Fields -> Value -> bool);
  _filterValueCallback : option (Fields -> Value -> Value);
  _randomizeValueCallback : option (Fields -> Random -> Value)
}.

(** The [spec] argument of the constructor; an absent [value] is
    [VUndefined], an absent callback [None]. *)
Record Spec := mkSpec {
  spec_value : Value;
  spec_validateValue : option (Fields -> Value -> bool);
  spec_filterValue : option (Fields -> Value -> Value);
  spec_randomizeValue : option (Fields -> Random -> Value)
}.

(** [spec = {}] *)
Definition empty_spec : Spec := mkSpec VUndefined None None None.

(** [constructor (name, spec = {})] *)
Definition new (name : string) (spec : option Spec) : Setting :=
  let spec := default empty_spec spec in
  {| fields := {| _name := name;
                  _value := or_else (spec_value spec) VNull;
                  _valid := true;
                  _delegate := None |};
     _validateValueCallback := spec_validateValue spec;
     _filterValueCallback := spec_filterValue spec;
     _randomizeValueCallback := spec_randomizeValue spec |}.

Definition with_fields (f : Fields) (s : Setting) : Setting :=
  mkSetting f (_validateValueCallback s) (_filterValueCallback s)
            (_randomizeValueCallback s).

Definition set_value (v : Value) (f : Fields) : Fields :=
  mkFields (_name f) v (_valid f) (_delegate f).
Definition set_valid (b : bool) (f : Fields) : Fields :=
  mkFields (_name f) (_value f) b (_delegate f).
Definition set_delegate (d : option Ref) (f : Fields) : Fields :=
  mkFields (_name f) (_value f) (_valid f) d.

Definition getName (s : Setting) : string := _name (fields s).
Definition getDelegate (s : Setting) : option Ref := _delegate (fields s).
Definition hasDelegate (s : Setting) : bool :=
  negb (bool_decide (_delegate (fields s) = None)).
Definition setDelegate (delegate : option Ref) (s : Setting) : Setting :=
  with_fields (set_delegate delegate (fields s)) s.
Definition isValid (s : Setting) : bool := _valid (fields s).
Definition getValue (s : Setting) : Value := _value (fields s).

(** [validateValue (rawValue)] *)
Definition validateValue (s : Setting) (rawValue : Value) : bool :=
  match _validateValueCallback s with
  | Some callback => callback (fields s) rawValue
  | None => true
  end.

(** [filterValue (rawValue)] *)
Definition filterValue (s : Setting) (rawValue : Value) : Value :=
  match _filterValueCallback s with
  | Some callback => callback (fields s) rawValue
  | None => rawValue
  end.

(** [randomizeValue (random)] *)
Definition randomizeValue (s : Setting) (random : Random) : Value :=
  match _randomizeValueCallback s with
  | Some callback => callback (fields s) random
  | None => getValue s
  end.

(** A call [delegate.settingValueDidChange(setting, value)]: the
    delegate is outside the class, so the call is recorded, with the
    fields the Setting has when it is made. *)
Record Notification := settingValueDidChange {
  to_delegate : Ref;
  of_setting : Fields;
  new_value : Value
}.

(** [delegate.settingValueDidChange(setting, value)] on the delegate
    slot; the slot is only called when [hasDelegate] holds. *)
Definition notify (delegate : option Ref) (f : Fields) (value : Value)
  : list Notification :=
  match delegate with
  | Some d => [settingValueDidChange d f value]
  | None => []
  end.

(** [setValue (rawValue, sender = null)]: the Setting after the call and
    the delegate calls made, in order. The method has no [throw]. *)
Definition setValue (rawValue : Value) (sender : option Ref) (s : Setting)
  : Setting * list Notification :=
  let s := with_fields (set_valid (validateValue s rawValue) (fields s)) s in
  if negb (_valid (fields s)) then
    (with_fields (set_value rawValue (fields s)) s, [])
  else
    let value := filterValue s rawValue in
    if strict_neq (_value (fields s)) value then
      let s := with_fields (set_value value (fields s)) s in
      if hasDelegate s && negb (bool_decide (getDelegate s = sender))
      then (s, notify (getDelegate s) (fields s) value)
      else (s, [])
    else (s, []).

(** [revalidateValue ()] *)
Definition revalidateValue (s : Setting) : Setting * list Notification :=
  setValue (getValue s) None s.

(** [randomize (random = null)] *)
Definition randomize (random : option Random) (s : Setting)
  : Setting * list Notification :=
  let value := randomizeValue s (default DefaultRandom random) in
  setValue value None s.

(** The message of the error of [serializeValue]. *)
Definition unsafe_type_message (v : Value) : string :=
  ("Generic Settings can only serialize boolean, number and string " ++
   "values safely. Found value type " ++ typeof v ++ ".")%string.

(** [serializeValue ()]: the Setting after the call and what the call
    returns or throws. *)
Definition serializeValue (s : Setting) : Setting * Completion Value :=
  let value := getValue s in
  if negb (String.eqb (typeof value) "boolean") &&
     negb (String.eqb (typeof value) "number") &&
     negb (String.eqb (typeof value) "string")
  then (s, inl (Error (unsafe_type_message value)))
  else (s, inr value).

(** [extractValue (data)] *)
Definition extractValue (data : Value) (s : Setting)
  : Setting * list Notification :=
  setValue data None s.


(** The value [setValue] compares with the stored one: the filter runs
    on the Setting whose [_valid] has been written. *)
Definition filtered (s : Setting) (rawValue : Value) : Value :=
  filterValue (with_fields (set_valid (validateValue s rawValue) (fields s)) s)
              rawValue.

(** The same Setting with another filter callback. *)
Definition with_filter (callback : option (Fields -> Value -> Value))
  (s : Setting) : Setting :=
  mkSetting (fields s) (_validateValueCallback s) callback
            (_randomizeValueCallback s).

(** [setValue(v, sender)] twice in a row: the Setting after each call
    and the delegate calls of each. *)
Definition first_call (v : Value) (sender : option Ref) (s : Setting) :=
  setValue v sender s.
Definition second_call (v : Value) (sender : option Ref) (s : Setting) :=
  setValue v sender (first_call v sender s).1.

(** Idempotent notification, as the specification words it: when [v]
    validates at both calls and both calls filter it to the same
    result, the delegate is called at most once, and not by the second
    call. *)
Definition notified_at_most_once (v : Value) (sender : option Ref)
  (s : Setting) : Prop :=
  validateValue s v = true ->
  validateValue (first_call v sender s).1 v = true ->
  filtered s v = filtered (first_call v sender s).1 v ->
  (length ((first_call v sender s).2 ++ (second_call v sender s).2) <= 1)%nat
  /\ (second_call v sender s).2 = [].

End Setting.

(** ** JavaScript arrays, as far as the Pipe class uses them *)
Module JSArray.
Section Array.
Context {A : Type} `{EqDecision A}.

(** [array[index]], [None] for [undefined]: an index that is not a
    position of the array names no element. *)
Definition get (array : list A) (index : Z) : option A :=
  if Z.ltb index 0 then None else array !! Z.to_nat index.

(** [array.indexOf(x)]: the first position holding [x], or -1. *)
Fixpoint indexOf (array : list A) (x : A) : Z :=
  match array with
  | [] => -1
  | y :: rest =>
      if decide (y = x) then 0
      else let i := indexOf rest x in if Z.eqb i (-1) then -1 else i + 1
  end.

(** The position [splice] starts at: a negative [start] counts from
    the end, and the result is clamped to the array. *)
Definition splice_start (len : nat) (start : Z) : nat :=
  if Z.ltb start 0 then Z.to_nat (Z.max (Z.of_nat len + start) 0)
  else Z.to_nat (Z.min start (Z.of_nat len)).

(** How many elements [splice] deletes from position [from]. *)
Definition splice_count (len from : nat) (deleteCount : Z) : nat :=
  Z.to_nat (Z.min (Z.max deleteCount 0) (Z.of_nat len - Z.of_nat from)).

(** [array.splice(start, deleteCount, ...items)]: the array after the
    call (the removed elements, which the class drops, are left out). *)
Definition splice (start deleteCount : Z) (items array : list A) : list A :=
  let from := splice_start (length array) start in
  let count := splice_count (length array) from deleteCount in
  take from array ++ items ++ drop (from + count)%nat array.

(** [array] without the elements at the positions in [indexes],
    the first element of [array] being at [position]. *)
Fixpoint omit_from (position : Z) (indexes : list Z) (array : list A) : list A :=
  match array with
  | [] => []
  | x :: rest =>
      if decide (position ∈ indexes) then omit_from (position + 1) indexes rest
      else x :: omit_from (position + 1) indexes rest
  end.

(** [array] without the elements at the positions in [indexes]; the
    others keep their order. *)
Definition omit (indexes : list Z) (array : list A) : list A :=
  omit_from 0 indexes array.

(** [index] is a position of [array]. *)
Definition is_position (array : list A) (index : Z) : Prop :=
  0 <= index < Z.of_nat (length array).

#[global] Instance is_position_dec array index : Decision (is_position array index).
Proof. unfold is_position. apply _. Defined.
End Array.

(** The order of the comparator [(a, b) => b - a]: [a] may stand
    before [b] when [b - a <= 0]. *)
Definition descending (a b : Z) : Prop := b <= a.

#[global] Instance descending_dec : RelDecision descending :=
  fun a b => Z.le_dec b a.

(** [indexes.sort((a, b) => b - a)] *)
Definition sort_descending (indexes : list Z) : list Z :=
  merge_sort descending indexes.
End JSArray.

(** ** The Pipe class *)
Module Pipe.

(** A Brick object, by its address. *)
Definition Brick := Ref.

(** [brick.getView()]: every Brick has a view of its own. *)
Inductive BrickView := ViewOf (brick : Brick).

#[global] Instance BrickView_eq_dec : EqDecision BrickView.
Proof. solve_decision. Defined.

Definition Brick_getView (brick : Brick) : BrickView := ViewOf brick.

(** The interface the Pipe consumes from ./View/Pipe: a view that is
    constructed without arguments and takes and drops subviews; its
    child list is what the specification observes. *)
Class ViewSurface (V : Type) := {
  newPipeView : V;
  addSubview : BrickView -> V -> V;
  removeSubview : BrickView -> V -> V;
  subviews : V -> list BrickView
}.

(** [children] without the first occurrence of [x]. *)
Fixpoint without (x : BrickView) (children : list BrickView) : list BrickView :=
  match children with
  | [] => []
  | y :: rest => if decide (y = x) then rest else y :: without x rest
  end.

(** Modelled from the spec: the View class behind ./View/Pipe is not
    among the sources; the specification names its interface
    ([addSubview(view)], [removeSubview(view)], constructible with no
    arguments) and a child list. A new view has no children,
    [addSubview] adds the given view as the last child and
    [removeSubview] takes the given view out of the child list. *)
Class ViewLaws (V : Type) `{ViewSurface V} : Prop := {
  subviews_new : subviews newPipeView = [];
  subviews_add x v : subviews (addSubview x v) = subviews v ++ [x];
  subviews_remove x v : subviews (removeSubview x v) = without x (subviews v)
}.

(** Modelled from the spec: the view as its child list, the smallest
    view with the interface and the laws above. *)
Definition ListView := list BrickView.

#[global] Instance ListView_surface : ViewSurface ListView := {
  newPipeView := [];
  addSubview x v := v ++ [x];
  removeSubview x v := without x v;
  subviews v := v
}.

(** The interface the Pipe consumes from ./Brick for serialization:
    [brick.serialize()] and the static [Brick.extract(data)], over the
    structured data [D] of a Brick. *)
Class BrickCodec (D : Type) := {
  Brick_serialize : Brick -> D;
  Brick_extract : D -> Completion Brick
}.

(** An argument of [removeBrick]: a Brick object or an index. *)
Inductive Element :=
| ElBrick (brick : Brick)
| ElIndex (index : Z).

#[global] Instance Element_eq_dec : EqDecision Element.
Proof. solve_decision. Defined.

(** The [bricks] property of structured data: an array, or anything
    for which [Array.isArray] is false. *)
Inductive BricksField (D : Type) :=
| IsArray (items : list D)
| NotArray.
Arguments IsArray {D} items.
Arguments NotArray {D}.

(** Structured data of a Pipe. *)
Record PipeData (D : Type) := mkPipeData {
  title : Value;
  description : Value;
  bricks : BricksField D
}.
Arguments mkPipeData {D}.
Arguments title {D}.
Arguments description {D}.
Arguments bricks {D}.

Section Class.
Context {V : Type} `{ViewSurface V}.

(** The fields of a Pipe object; [_view] is [None] for [null]. *)
Record Pipe := mkPipe {
  _bricks : list Brick;
  _title : Value;
  _description : Value;
  _view : option V
}.

(** What a method call works on: the Pipe it is called on ([self],
    at address [this]) and the pipe slot of every Brick, [null] for
    a Brick that is not in the map. *)
Record Heap := mkHeap {
  this : Ref;
  self : Pipe;
  pipe_of : gmap Brick Ref
}.

(** A method body: it returns or throws, and leaves a heap either
    way. *)
Definition Method (A : Type) : Type := Heap -> Completion A * Heap.

Definition ret {A} (x : A) : Method A := fun h => (inr x, h).
Definition throw {A} (e : Exception) : Method A := fun h => (inl e, h).
Definition bind {A B} (m : Method A) (k : A -> Method B) : Method B :=
  fun h => match m h with
           | (inr x, h') => k x h'
           | (inl e, h') => (inl e, h')
           end.

#[global] Instance Method_ret : MRet Method := @ret.
#[global] Instance Method_bind : MBind Method := fun A B k m => bind m k.

(** [array.forEach(f)] *)
Fixpoint forEach {A} (f : A -> Method unit) (array : list A) : Method unit :=
  match array with
  | [] => ret tt
  | x :: rest => f x ;; forEach f rest
  end.

(** Reading and writing the fields of [this]. *)
Definition get_this : Method Ref := fun h => (inr (this h), h).
Definition get_self : Method Pipe := fun h => (inr (self h), h).
Definition update (f : Pipe -> Pipe) : Method unit :=
  fun h => (inr tt, mkHeap (this h) (f (self h)) (pipe_of h)).

Definition with_bricks (bricks : list Brick) (p : Pipe) : Pipe :=
  mkPipe bricks (_title p) (_description p) (_view p).
Definition with_title (title : Value) (p : Pipe) : Pipe :=
  mkPipe (_bricks p) title (_description p) (_view p).
Definition with_description (description : Value) (p : Pipe) : Pipe :=
  mkPipe (_bricks p) (_title p) description (_view p).
Definition with_view (view : option V) (p : Pipe) : Pipe :=
  mkPipe (_bricks p) (_title p) (_description p) view.

(** [brick.setPipe(pipe)]: the pipe slot of the Brick is replaced. *)
Definition Brick_setPipe (brick : Brick) (pipe : option Ref) : Method unit :=
  fun h => (inr tt,
            mkHeap (this h) (self h)
                   (match pipe with
                    | Some p => <[brick := p]> (pipe_of h)
                    | None => delete brick (pipe_of h)
                    end)).

(** [constructor ()] *)
Definition new : Pipe := mkPipe [] VNull VNull None.

(** [getBricks ()] *)
Definition getBricks : Method (list Brick) :=
  p ← get_self; mret (_bricks p).

(** [createView ()] *)
Definition createView : Method V :=
  let view := newPipeView in
  mret view.

(** [getView ()] *)
Definition getView : Method V :=
  p ← get_self;
  match _view p with
  | None =>
      view ← createView;
      update (with_view (Some view));;
      mret view
  | Some view => mret view
  end.

(** [insertBrick (index, ...bricks)]. [this.getView()] is an object,
    so the [&&] goes on to its right operand; the subview call changes
    the view object the [_view] field refers to. The fluent result
    [this] is the heap the method leaves. *)
Definition insertBrick (index : Z) (bricks : list Brick) : Method unit :=
  update (fun p => with_bricks (JSArray.splice index 0 bricks (_bricks p)) p);;
  forEach (fun brick =>
    pipe ← get_this;
    Brick_setPipe brick (Some pipe);;
    _ ← getView;
    view ← getView;
    update (with_view (Some (addSubview (Brick_getView brick) view))))
    bricks.

(** [addBrick (...bricks)] *)
Definition addBrick (bricks : list Brick) : Method unit :=
  insertBrick (-1) bricks.

(** The [map] callback of [removeBrick]. *)
Definition to_index (bricks : list Brick) (brickOrIndex : Element) : Z :=
  match brickOrIndex with
  | ElBrick brick => JSArray.indexOf bricks brick
  | ElIndex index => index
  end.

(** The indexes [removeBrick] goes through, before they are sorted:
    the [map] and the [filter] of the chain. *)
Definition targets (bricks : list Brick) (elements : list Element) : list Z :=
  filter (fun index => index ≠ -1) (to_index bricks <$> elements).

(** [removeBrick (...elements)]. Reading [setPipe] off [undefined]
    throws a TypeError. *)
Definition removeBrick (elements : list Element) : Method unit :=
  bricks ← getBricks;
  forEach (fun index =>
    bricks ← getBricks;
    match JSArray.get bricks index with
    | None => throw (TypeError "Cannot read property 'setPipe' of undefined")
    | Some brick =>
        Brick_setPipe brick None;;
        update (fun p => with_bricks (JSArray.splice index 1 [] (_bricks p)) p);;
        _ ← getView;
        view ← getView;
        update (with_view (Some (removeSubview (Brick_getView brick) view)))
    end)
    (JSArray.sort_descending (targets bricks elements)).

(** [viewerContentDidChange (viewer, content)] and
    [encoderSettingDidChange (encoder)]: empty bodies. *)
Definition viewerContentDidChange : Method unit := mret tt.
Definition encoderSettingDidChange : Method unit := mret tt.

(** [getTitle ()], [setTitle (title)], [getDescription ()],
    [setDescription (description)] *)
Definition getTitle : Method Value := p ← get_self; mret (_title p).
Definition setTitle (title : Value) : Method unit := update (with_title title).
Definition getDescription : Method Value := p ← get_self; mret (_description p).
Definition setDescription (description : Value) : Method unit :=
  update (with_description description).

Section Serialization.
Context {D : Type} `{BrickCodec D}.

(** [serialize ()]: it reads the fields and writes none. *)
Definition serialize (p : Pipe) : PipeData D :=
  {| title := _title p;
     description := _description p;
     bricks := IsArray (Brick_serialize <$> _bricks p) |}.

(** [data.bricks.map(brickData => Brick.extract(brickData))]: the
    first Brick that fails to extract ends the map. *)
Fixpoint extract_bricks (items : list D) : Completion (list Brick) :=
  match items with
  | [] => inr []
  | brickData :: rest =>
      match Brick_extract brickData with
      | inl e => inl e
      | inr brick =>
          match extract_bricks rest with
          | inl e => inl e
          | inr bricks => inr (brick :: bricks)
          end
      end
  end.

(** The first argument of a call made with Brick arguments. *)
Definition first_argument (arguments : list Brick) : Value :=
  match arguments with
  | [] => VUndefined
  | brick :: _ => VObject brick
  end.

(** The methods an instance finds under a name, each as its call
    with Brick objects for arguments: parameters a method does not
    declare are ignored, a Brick in the place of the index of
    [insertBrick] is no number, which [splice] reads as 0. The
    class declares no other method, and [Object.prototype], which
    it inherits from, has none named [add]. *)
Definition prototype : list (string * (list Brick -> Method unit)) :=
  [ ("getBricks", fun _ => _ ← getBricks; mret tt);
    ("addBrick", addBrick);
    ("insertBrick", fun arguments => insertBrick 0 (tail arguments));
    ("removeBrick", fun arguments => removeBrick (ElBrick <$> arguments));
    ("viewerContentDidChange", fun _ => viewerContentDidChange);
    ("encoderSettingDidChange", fun _ => encoderSettingDidChange);
    ("getTitle", fun _ => _ ← getTitle; mret tt);
    ("setTitle", fun arguments => setTitle (first_argument arguments));
    ("getDescription", fun _ => _ ← getDescription; mret tt);
    ("setDescription",
      fun arguments => setDescription (first_argument arguments));
    ("getView", fun _ => _ ← getView; mret tt);
    ("createView", fun _ => _ ← createView; mret tt);
    ("serialize", fun _ => mret tt) ].

(** [pipe.name], [None] for [undefined]. *)
Fixpoint member_of (table : list (string * (list Brick -> Method unit)))
  (name : string) : option (list Brick -> Method unit) :=
  match table with
  | [] => None
  | (key, method) :: rest =>
      if String.eqb key name then Some method else member_of rest name
  end.

(** [static extract (data)]: the heap of the new Pipe, placed at
    [address], or what is thrown. Calling [apply] on [undefined]
    throws a TypeError. *)
Definition extract (address : Ref) (data : PipeData D) : Completion Heap :=
  match bricks data with
  | NotArray => inl (Error "Can't extract bricks from structured data.")
  | IsArray items =>
      match extract_bricks items with
      | inl e => inl e
      | inr bricks =>
          let pipe := mkHeap address new ∅ in
          let compose : Method unit :=
            match member_of prototype "add" with
            | None =>
                throw (TypeError "Cannot read property 'apply' of undefined")
            | Some add => add bricks
            end;;
            setTitle (title data);;
            setDescription (description data) in
          match compose pipe with
          | (inl e, _) => inl e
          | (inr _, h) => inr h
          end
      end
  end.
End Serialization.

(** The view [getView] returns: the one there is, or a new one. *)
Definition materialized (p : Pipe) : V :=
  match _view p with
  | Some view => view
  | None => newPipeView
  end.

(** One round of the loop of [insertBrick]. *)
Definition attach (brick : Brick) (h : Heap) : Heap :=
  mkHeap (this h)
         (with_view (Some (addSubview (Brick_getView brick) (materialized (self h))))
                    (self h))
         (<[brick := this h]> (pipe_of h)).

(** One round of the loop of [removeBrick] that finds [brick] at
    [index]. *)
Definition detach (index : Z) (brick : Brick) (h : Heap) : Heap :=
  mkHeap (this h)
         (with_view (Some (removeSubview (Brick_getView brick) (materialized (self h))))
                    (with_bricks (JSArray.splice index 1 [] (_bricks (self h)))
                                 (self h)))
         (delete brick (pipe_of h)).

(** One round of the loop of [removeBrick] at [index]: it throws
    when no Brick is there. *)
Definition removal (index : Z) : Method unit :=
  fun h =>
    match JSArray.get (_bricks (self h)) index with
    | None => (inl (TypeError "Cannot read property 'setPipe' of undefined"), h)
    | Some brick => (inr tt, detach index brick h)
    end.

(** A call on a Pipe, for sequences of calls. *)
Inductive Call :=
| CallInsertBrick (index : Z) (bricks : list Brick)
| CallRemoveBrick (elements : list Element)
| CallGetView.

Definition perform (c : Call) : Method unit :=
  match c with
  | CallInsertBrick index bricks => insertBrick index bricks
  | CallRemoveBrick elements => removeBrick elements
  | CallGetView => _ ← getView; mret tt
  end.

(** The heap a method leaves, whether it returns or throws. *)
Definition after {A} (m : Method A) (h : Heap) : Heap := (m h).2.

(** The heaps at the observation points of a sequence of calls: one
    after every call. *)
Fixpoint observations (calls : list Call) (h : Heap) : list Heap :=
  match calls with
  | [] => []
  | c :: rest => after (perform c) h :: observations rest (after (perform c) h)
  end.

(** The child list of the view is index-aligned with the bricks: the
    child at every position is the view of the Brick at that
    position, and no other child is there. *)
Definition aligned (view : V) (p : Pipe) : Prop :=
  subviews view = Brick_getView <$> _bricks p.

(** The view exists and its child list is aligned with the bricks. *)
Definition view_aligned (p : Pipe) : Prop :=
  match _view p with
  | Some view => aligned view p
  | None => False
  end.

(** The indexes the specification has [removeBrick] keep: those of
    the mapped arguments that are positions of the brick sequence. *)
Definition valid_targets (bricks : list Brick) (elements : list Element) : list Z :=
  filter (JSArray.is_position bricks) (to_index bricks <$> elements).

(** Removal robustness, as the specification words it: the call
    returns, and the bricks left are those not at a valid index. *)
Definition removes_valid_targets (elements : list Element) (h : Heap) : Prop :=
  returns (removeBrick elements h).1 = true
  /\ _bricks (self (after (removeBrick elements) h))
     = JSArray.omit (valid_targets (_bricks (self h)) elements) (_bricks (self h)).

(** The order invariant, as the specification words it: the view is
    aligned with the bricks at every observation point. *)
Definition stays_aligned (calls : list Call) (h : Heap) : Prop :=
  Forall (fun h' => view_aligned (self h')) (observations calls h).

(** [insertBrick (index, ...bricks)] inserts at the tail, and the
    Bricks are distinct and new to the Pipe. *)
Definition appends_new (index : Z) (bricks : list Brick) (p : Pipe) : Prop :=
  JSArray.splice_start (length (_bricks p)) index = length (_bricks p)
  /\ NoDup (_bricks p ++ bricks).

(** Every [insertBrick] of a sequence of calls appends new Bricks to
    the Pipe it finds. *)
Fixpoint insertions_append (calls : list Call) (h : Heap) : Prop :=
  match calls with
  | [] => True
  | c :: rest =>
      match c with
      | CallInsertBrick index bricks => appends_new index bricks (self h)
      | _ => True
      end
      /\ insertions_append rest (after (perform c) h)
  end.

(** No Brick is in the Pipe twice, and every Brick of the Pipe has the
    Pipe in its pipe slot. *)
Definition owns_bricks (h : Heap) : Prop :=
  NoDup (_bricks (self h))
  /\ forall brick, brick ∈ _bricks (self h) -> pipe_of h !! brick = Some (this h).

(** Every [insertBrick] of a sequence of calls inserts Bricks that are
    distinct and new to the Pipe it finds. *)
Fixpoint insertions_new (calls : list Call) (h : Heap) : Prop :=
  match calls with
  | [] => True
  | c :: rest =>
      match c with
      | CallInsertBrick index bricks => NoDup (_bricks (self h) ++ bricks)
      | _ => True
      end
      /\ insertions_new rest (after (perform c) h)
  end.

(** An argument of [removeBrick] that names no Brick of [bricks]: a
    Brick that is not among them, or the index -1. *)
Definition names_nothing (bricks : list Brick) (element : Element) : Prop :=
  match element with
  | ElBrick brick => brick ∉ bricks
  | ElIndex index => index = -1
  end.

(** What a removal keeps with respect to the Bricks [before] it and
    their pipe slots [slots]: no Brick comes in, a Brick that went has
    an empty pipe slot, and the pipe slot of a Brick that was not in
    the Pipe is as it was. *)
Definition releases (before : list Brick) (slots : gmap Brick Ref) (h : Heap) : Prop :=
  _bricks (self h) `sublist_of` before
  /\ (forall brick, brick ∈ before -> brick ∉ _bricks (self h) ->
        pipe_of h !! brick = None)
  /\ (forall brick, brick ∉ before -> pipe_of h !! brick = slots !! brick).

(** The Pipe holds nothing and shows nothing, or its view is aligned
    with its bricks, which are distinct. *)
Definition blank_or_aligned (h : Heap) : Prop :=
  (_view (self h) = None /\ _bricks (self h) = [])
  \/ (view_aligned (self h) /\ NoDup (_bricks (self h))).

(** A Pipe without a view holds no Brick. *)
Definition view_before_bricks (p : Pipe) : Prop :=
  _view p = None -> _bricks p = [].
End Class.
Arguments Pipe V : clear implicits.
Arguments Heap V : clear implicits.
Arguments Method V A : clear implicits.
End Pipe.

(** ** Sample objects *)
Module Examples.
Import Pipe.

(** A Pipe at address 0 with the Bricks 1, 2 and 3, without a view. *)
Definition three_bricks : Heap ListView :=
  mkHeap 0%nat (mkPipe [1; 2; 3]%nat VNull VNull None) ∅.

(** A Pipe at address 0 with the Brick 1 and a view showing it. *)
Definition one_brick_shown : Heap ListView :=
  mkHeap 0%nat (mkPipe [1%nat] VNull VNull (Some [ViewOf 1%nat])) ∅.

(** A new Pipe at address 0. *)
Definition empty_pipe : Heap ListView := mkHeap 0%nat new ∅.

(** Bricks whose structured data is their address, and which extract
    from any data. *)
#[global] Instance address_codec : BrickCodec nat := {
  Brick_serialize brick := brick;
  Brick_extract brickData := inr brickData
}.

(** Bricks whose structured data is their address when there is one,
    and which fail to extract from data without an address. *)
#[global] Instance optional_codec : BrickCodec (option nat) := {
  Brick_serialize brick := Some brick;
  Brick_extract brickData :=
    match brickData with
    | Some brick => inr brick
    | None => inl (Error "Can't extract brick from structured data.")
    end
}.
End Examples.

(** ** Properties of the Setting class *)
Module SettingProperties.
Import Setting.

Lemma strict_eq_eq (a b : Value) : strict_eq a b = true -> a = b.
Proof.
  destruct a, b; unfold strict_eq; intros E;
    first [discriminate E | by apply bool_decide_eq_true in E].
Qed.

Lemma strict_eq_refl (a : Value) : a <> VNaN -> strict_eq a a = true.
Proof.
  destruct a; unfold strict_eq; intros E; try done; by apply bool_decide_eq_true.
Qed.

(** [isValid] after [setValue] is the verdict of the validation. *)
Lemma isValid_setValue raw sender s :
  isValid (setValue raw sender s).1 = validateValue s raw.
Proof.
  unfold setValue, isValid. simpl.
  destruct (validateValue s raw) eqn:E; simpl; [|done].
  repeat case_match; simpl; done.
Qed.

(** A valid value whose filtered form is strictly equal to the stored
    value: only the flag is written, and nobody is called. *)
Lemma setValue_unchanged raw sender s :
  validateValue s raw = true ->
  strict_eq (getValue s) (filtered s raw) = true ->
  setValue raw sender s = (with_fields (set_valid true (fields s)) s, []).
Proof.
  intros Hv He. unfold filtered in He. unfold setValue.
  rewrite Hv in *. simpl.
  unfold strict_neq, getValue in *. simpl. by rewrite He.
Qed.

(** A valid value is stored in its filtered form. *)
Lemma getValue_setValue_valid raw sender s :
  validateValue s raw = true ->
  getValue (setValue raw sender s).1 = filtered s raw.
Proof.
  intros Hv. unfold filtered, setValue. rewrite Hv. simpl.
  unfold strict_neq.
  destruct (strict_eq _ _) eqn:He; simpl.
  - by apply strict_eq_eq in He.
  - by case_match.
Qed.

(** C10. A Setting constructed with name [name] and spec [spec] holds
    [spec.value] when that is truthy and [null] otherwise, so the falsy
    defaults [false], [0] and the empty string become [null]; it is
    valid whatever the validation callback would say of the default,
    and it has no delegate. Without a spec the value is [null]. *)
Theorem new_initial_state (name : string) (spec : Spec) :
  getName (new name (Some spec)) = name
  /\ getValue (new name (Some spec))
     = (if truthy (spec_value spec) then spec_value spec else VNull)
  /\ isValid (new name (Some spec)) = true
  /\ getDelegate (new name (Some spec)) = None
  /\ getValue (new name (Some (mkSpec (VBool false) (spec_validateValue spec)
       (spec_filterValue spec) (spec_randomizeValue spec)))) = VNull
  /\ getValue (new name (Some (mkSpec (VNumber 0) (spec_validateValue spec)
       (spec_filterValue spec) (spec_randomizeValue spec)))) = VNull
  /\ getValue (new name (Some (mkSpec (VString "") (spec_validateValue spec)
       (spec_filterValue spec) (spec_randomizeValue spec)))) = VNull
  /\ fields (new name None) = mkFields name VNull true None.
Proof.
  unfold new, getName, getValue, isValid, getDelegate, or_else. simpl.
  repeat split.
Qed.

(** The constructor does not validate: a default the callback rejects
    is stored, and the Setting is valid. *)
Example new_skips_validation :
  let rejects_all : Fields -> Value -> bool := fun _ _ => false in
  let setting := new "shift" (Some (mkSpec (VNumber 7) (Some rejects_all) None None)) in
  validateValue setting (VNumber 7) = false
  /\ isValid setting = true
  /\ getValue setting = VNumber 7.
Proof. repeat split. Qed.

(** C9. [serializeValue] throws exactly when the type of the current
    value is none of boolean, number and string; when it returns, it
    returns the current value; the Setting is the same after the call
    either way. *)
Theorem serializeValue_throws_iff (s : Setting) :
  (serializeValue s).1 = s
  /\ (throws (serializeValue s).2 = true <->
      typeof (getValue s) <> "boolean"
      /\ typeof (getValue s) <> "number"
      /\ typeof (getValue s) <> "string")
  /\ (returns (serializeValue s).2 = true ->
      (serializeValue s).2 = inr (getValue s)).
Proof.
  unfold serializeValue.
  destruct (getValue s) eqn:E; simpl; repeat split; try done;
    intros; try discriminate; try tauto;
    match goal with H : _ /\ _ /\ _ |- _ => destruct H as (? & ? & ?); done end.
Qed.

Lemma serializeValue_throws_iff_witness :
  throws (serializeValue (new "alphabet" (Some (mkSpec (VObject 4%nat) None None None)))).2 = true
  /\ (serializeValue (new "shift" (Some (mkSpec (VNumber 7) None None None)))).2
     = inr (VNumber 7).
Proof.
  split.
  - apply (serializeValue_throws_iff
             (new "alphabet" (Some (mkSpec (VObject 4%nat) None None None)))).
    repeat split; discriminate.
  - apply (serializeValue_throws_iff
             (new "shift" (Some (mkSpec (VNumber 7) None None None)))).
    reflexivity.
Defined.

(** An invalid Setting shows the raw value of the call that made it
    invalid. *)
Lemma invalid_shows_raw raw sender s :
  isValid (setValue raw sender s).1 = false ->
  getValue (setValue raw sender s).1 = raw.
Proof.
  rewrite isValid_setValue. intros Hfails.
  unfold setValue. by rewrite Hfails.
Qed.

(** C8. A raw value that fails validation is stored as it is, the
    Setting becomes invalid, no delegate is called and the filter
    plays no part: with any other filter callback the call leaves the
    same fields. So an invalid Setting shows the rejected raw value. *)
Theorem setValue_invalid (s : Setting) (raw : Value) (sender : option Ref)
  (Hfails : validateValue s raw = false) :
  getValue (setValue raw sender s).1 = raw
  /\ isValid (setValue raw sender s).1 = false
  /\ (setValue raw sender s).2 = []
  /\ getDelegate (setValue raw sender s).1 = getDelegate s
  /\ forall callback,
       setValue raw sender (with_filter callback s)
       = (with_filter callback (setValue raw sender s).1, []).
Proof.
  unfold setValue, validateValue in *. simpl.
  rewrite Hfails. simpl. repeat split.
Qed.

Lemma setValue_invalid_witness :
  let only_numbers : Fields -> Value -> bool :=
    fun _ v => String.eqb (typeof v) "number" in
  let s := (setValue (VNumber 5) None
              (new "shift" (Some (mkSpec VUndefined (Some only_numbers) None None)))).1 in
  getValue (setValue (VString "abc") None s).1 = VString "abc"
  /\ isValid (setValue (VString "abc") None s).1 = false.
Proof.
  intros only_numbers s.
  pose proof (setValue_invalid s (VString "abc") None eq_refl) as H.
  split; apply H.
Defined.

(** C7. With delegate [d], [setValue(raw, d)] never calls the
    delegate, also when the value is valid and its filtered form is
    stored; and whoever the sender is, the only object ever called is
    the delegate that is set, and only when it is not the sender. *)
Theorem setValue_sender_suppressed (s : Setting) (raw : Value) :
  (forall d, getDelegate s = Some d ->
     (setValue raw (Some d) s).2 = []
     /\ (validateValue s raw = true ->
         getValue (setValue raw (Some d) s).1 = filtered s raw))
  /\ (forall sender n, n ∈ (setValue raw sender s).2 ->
       getDelegate s = Some (to_delegate n) /\ sender <> Some (to_delegate n)).
Proof.
  split.
  - intros d Hd. split; [|by apply getValue_setValue_valid].
    unfold setValue, getDelegate, hasDelegate in *. simpl. rewrite Hd.
    rewrite (bool_decide_eq_true_2 (Some d = Some d)) by done.
    rewrite andb_false_r. by repeat case_match.
  - intros sender n. unfold setValue, getDelegate, hasDelegate. simpl.
    destruct (_delegate (fields s)) as [d|] eqn:Hd.
    + destruct (decide (Some d = sender)) as [<-|Hne].
      * rewrite (bool_decide_eq_true_2 (Some d = Some d)) by done.
        rewrite andb_false_r. repeat case_match; by intros ?%elem_of_nil.
      * repeat case_match; simpl; try (by intros ?%elem_of_nil).
        intros ->%list_elem_of_singleton. simpl. split; [done|congruence].
    + repeat case_match; simpl; by intros ?%elem_of_nil.
Qed.

Lemma setValue_sender_suppressed_witness :
  let s := setDelegate (Some 1%nat) (new "shift" None) in
  (setValue (VNumber 5) (Some 1%nat) s).2 = []
  /\ getValue (setValue (VNumber 5) (Some 1%nat) s).1 = VNumber 5
  /\ length (setValue (VNumber 5) None s).2 = 1%nat.
Proof.
  intros s.
  destruct (setValue_sender_suppressed s (VNumber 5)) as [Hsame _].
  destruct (Hsame 1%nat eq_refl) as [Hnone Hstored].
  split; [exact Hnone|]. split; [exact (Hstored eq_refl)|reflexivity].
Defined.

(** C6, as stated, fails: the identity filter maps NaN to NaN at both
    calls, NaN is never strictly equal to the stored NaN, and the
    delegate is called by both calls. *)
Lemma setValue_NaN_notifies_twice :
  ~ notified_at_most_once VNaN None
      (setDelegate (Some 1%nat) (new "shift" None)).
Proof.
  unfold notified_at_most_once. intros H.
  destruct (H eq_refl eq_refl eq_refl) as [_ H2]. discriminate H2.
Qed.

(** C6, amended. When [v] validates at both calls and both calls
    filter it to the same result, a result strictly equal to itself
    (anything but NaN), the second call leaves the Setting as the
    first left it and calls nobody, so the delegate is called at most
    once, by the first call only. *)
Theorem setValue_twice_notifies_once (s : Setting) (v : Value)
  (sender : option Ref)
  (Hvalid1 : validateValue s v = true)
  (Hvalid2 : validateValue (first_call v sender s).1 v = true)
  (Hsame : filtered s v = filtered (first_call v sender s).1 v)
  (Hstable : strict_eq (filtered s v) (filtered s v) = true) :
  (second_call v sender s).2 = []
  /\ (second_call v sender s).1 = (first_call v sender s).1
  /\ (length ((first_call v sender s).2 ++ (second_call v sender s).2) <= 1)%nat.
Proof.
  unfold second_call.
  assert (Hstored : getValue (first_call v sender s).1 = filtered s v)
    by by apply getValue_setValue_valid.
  assert (Hflag : isValid (first_call v sender s).1 = true)
    by (unfold first_call; by rewrite isValid_setValue).
  rewrite setValue_unchanged; [| done | by rewrite Hstored, <- Hsame].
  simpl. split; [done|]. split.
  - destruct (first_call v sender s).1 as [[] ? ? ?].
    unfold isValid in Hflag. simpl in *. by rewrite Hflag.
  - rewrite app_nil_r. unfold first_call, setValue.
    repeat case_match; simpl; try lia. unfold notify. case_match; simpl; lia.
Qed.

Lemma setValue_twice_notifies_once_witness :
  let s := setDelegate (Some 1%nat) (new "shift" None) in
  (first_call (VNumber 5) None s).2
    = [settingValueDidChange 1%nat (mkFields "shift" (VNumber 5) true (Some 1%nat))
         (VNumber 5)]
  /\ (second_call (VNumber 5) None s).2 = [].
Proof.
  intros s. split; [reflexivity|].
  apply (setValue_twice_notifies_once s (VNumber 5) None
           eq_refl eq_refl eq_refl eq_refl).
Defined.

End SettingProperties.

(** ** Facts about arrays *)
Module ArrayFacts.
Import JSArray.

Section Facts.
Context {A : Type} `{EqDecision A}.
Implicit Types (array items : list A) (index position : Z).

Lemma get_Some array index x :
  get array index = Some x <->
  is_position array index /\ array !! Z.to_nat index = Some x.
Proof.
  unfold get, is_position. destruct (Z.ltb_spec index 0).
  - split; [done | lia].
  - split.
    + intros E. split; [|done]. apply lookup_lt_Some in E. lia.
    + by intros [_ E].
Qed.

Lemma get_None array index :
  get array index = None <-> ~ is_position array index.
Proof.
  unfold get, is_position. destruct (Z.ltb_spec index 0).
  - split; [lia | done].
  - rewrite lookup_ge_None. lia.
Qed.

Lemma splice_at_tail index items array :
  splice_start (length array) index = length array ->
  splice index 0 items array = array ++ items.
Proof.
  intros E. unfold splice. rewrite E.
  rewrite firstn_all, drop_ge by lia. by rewrite app_nil_r.
Qed.

Lemma splice_minus_one items array x :
  splice (-1) 0 items (array ++ [x]) = array ++ items ++ [x].
Proof.
  unfold splice.
  assert (splice_start (length (array ++ [x])) (-1) = length array) as ->.
  { unfold splice_start. rewrite length_app. simpl. lia. }
  assert (forall n, splice_count n (length array) 0 = 0%nat) as ->.
  { intros n. unfold splice_count. lia. }
  rewrite Nat.add_0_r. by rewrite take_app_length, drop_app_length.
Qed.

Lemma splice_one index array :
  is_position array index ->
  splice index 1 [] array = delete (Z.to_nat index) array.
Proof.
  unfold is_position, splice. intros Hi.
  assert (splice_start (length array) index = Z.to_nat index) as ->.
  { unfold splice_start. destruct (Z.ltb_spec index 0); lia. }
  assert (splice_count (length array) (Z.to_nat index) 1 = 1%nat) as ->.
  { unfold splice_count. lia. }
  rewrite delete_take_drop. simpl. do 2 f_equal. lia.
Qed.

Lemma omit_from_below position indexes array :
  Forall (fun i => i < position) indexes ->
  omit_from position indexes array = array.
Proof.
  revert position. induction array as [|x rest IH]; intros position Hlt; [done|].
  simpl. rewrite decide_False.
  - f_equal. apply IH. eapply Forall_impl; [done|]. simpl. lia.
  - intros Hin. rewrite Forall_forall in Hlt. specialize (Hlt _ Hin). lia.
Qed.

Lemma omit_from_delete position index indexes array :
  position <= index < position + Z.of_nat (length array) ->
  Forall (fun i => i < index) indexes ->
  omit_from position indexes (delete (Z.to_nat (index - position)) array)
  = omit_from position (index :: indexes) array.
Proof.
  revert position. induction array as [|x rest IH]; intros position Hi Hlt.
  { simpl in Hi. lia. }
  destruct (decide (index = position)) as [->|Hne].
  - replace (Z.to_nat (position - position)) with 0%nat by lia. simpl.
    rewrite decide_True by (apply elem_of_cons; by left).
    rewrite !omit_from_below; [done| |done].
    constructor; [lia|]. eapply Forall_impl; [done|]. simpl. lia.
  - replace (Z.to_nat (index - position)) with (S (Z.to_nat (index - (position + 1)))) by lia.
    simpl in *.
    rewrite <- IH by (done || lia).
    destruct (decide (position ∈ indexes)) as [Hin|Hin].
    + rewrite decide_True by (apply elem_of_cons; by right). done.
    + rewrite decide_False; [done|].
      intros [?|?]%elem_of_cons; [lia|done].
Qed.

Lemma omit_from_ext position indexes indexes' array :
  (forall i, i ∈ indexes <-> i ∈ indexes') ->
  omit_from position indexes array = omit_from position indexes' array.
Proof.
  intros Hext. revert position.
  induction array as [|x rest IH]; intros position; [done|]. simpl.
  rewrite !IH.
  destruct (decide (position ∈ indexes)) as [Hin|Hin].
  - rewrite decide_True by by apply Hext. done.
  - rewrite decide_False by by rewrite <- Hext. done.
Qed.
End Facts.

#[global] Instance descending_trans : Transitive descending.
Proof. unfold descending. intros a b c. lia. Qed.

#[global] Instance descending_total : Total descending.
Proof. unfold descending. intros a b. lia. Qed.

Lemma sort_descending_perm indexes : sort_descending indexes ≡ₚ indexes.
Proof. apply merge_sort_Permutation. Qed.

Lemma sort_descending_sorted indexes :
  StronglySorted descending (sort_descending indexes).
Proof. apply StronglySorted_merge_sort; apply _. Qed.

(** A sorted list without repetition goes strictly down. *)
Lemma descending_strict index indexes :
  StronglySorted descending (index :: indexes) ->
  NoDup (index :: indexes) ->
  Forall (fun i => i < index) indexes.
Proof.
  intros Hs Hn. apply StronglySorted_inv in Hs as [_ Hle].
  apply NoDup_cons in Hn as [Hnot _].
  rewrite Forall_forall in *. intros i Hi.
  specialize (Hle i Hi). unfold descending in Hle.
  assert (i <> index) by (intros ->; done). lia.
Qed.
End ArrayFacts.

(** ** How the methods of the Pipe run *)
Module PipeRuns.
Import JSArray Pipe ArrayFacts.

Section Runs.
Context {V : Type} `{ViewSurface V}.
Implicit Types (h : Heap V) (p : Pipe V) (bricks : list Brick).

(** A loop whose rounds all return goes through the whole array. *)
Lemma forEach_returns {A} (f : A -> Method V unit) (g : A -> Heap V -> Heap V)
  (array : list A) h :
  (forall x h', f x h' = (inr tt, g x h')) ->
  forEach f array h = (inr tt, foldl (fun h' x => g x h') h array).
Proof.
  intros Hf. revert h. induction array as [|x rest IH]; intros h; [done|].
  simpl. unfold mbind, Method_bind, bind. by rewrite Hf, IH.
Qed.

(** What every round keeps, the loop keeps, also when a round
    throws. *)
Lemma forEach_keeps {A} (f : A -> Method V unit) (P : Heap V -> Prop)
  (array : list A) h :
  (forall x h', P h' -> P (f x h').2) ->
  P h -> P (forEach f array h).2.
Proof.
  intros Hf. revert h. induction array as [|x rest IH]; intros h Hh; [done|].
  simpl. unfold mbind, Method_bind, bind.
  specialize (Hf x h Hh). destruct (f x h) as [[e|[]] h']; simpl in *; [done|].
  by apply IH.
Qed.

Lemma getView_run h :
  getView h = (inr (materialized (self h)),
               mkHeap (this h) (with_view (Some (materialized (self h))) (self h))
                      (pipe_of h)).
Proof.
  unfold getView, materialized, mbind, Method_bind, bind, get_self. simpl.
  destruct h as [t [bs ti de [view|]] m]; reflexivity.
Qed.

Lemma insert_round brick h :
  (pipe ← get_this;
   Brick_setPipe brick (Some pipe);;
   _ ← getView;
   view ← getView;
   update (with_view (Some (addSubview (Brick_getView brick) view)))) h
  = (inr tt, attach brick h).
Proof.
  unfold mbind, Method_bind, bind, get_this, Brick_setPipe. simpl.
  rewrite !getView_run. simpl. reflexivity.
Qed.

Lemma insertBrick_run index bricks h :
  insertBrick index bricks h
  = (inr tt,
     foldl (fun h' brick => attach brick h')
           (mkHeap (this h)
                   (with_bricks (splice index 0 bricks (_bricks (self h))) (self h))
                   (pipe_of h))
           bricks).
Proof.
  unfold insertBrick, mbind, Method_bind, bind, update at 1. simpl.
  apply forEach_returns. intros brick h'. apply insert_round.
Qed.

Lemma attach_all_bricks bricks h :
  _bricks (self (foldl (fun h' brick => attach brick h') h bricks))
  = _bricks (self h).
Proof. revert h. induction bricks as [|b rest IH]; intros h; [done|]. simpl. by rewrite IH. Qed.

Lemma attach_all_view b bricks h :
  is_Some (_view (self (foldl (fun h' brick => attach brick h') h (b :: bricks)))).
Proof.
  simpl.
  assert (is_Some (_view (self (attach b h)))) as Hs by (simpl; eauto).
  revert Hs. generalize (attach b h).
  induction bricks as [|b' rest IH]; intros h' Hs; [done|].
  simpl. apply IH. simpl. eauto.
Qed.

Lemma insertBrick_bricks index bricks h :
  _bricks (self (after (insertBrick index bricks) h))
  = splice index 0 bricks (_bricks (self h)).
Proof. unfold after. rewrite insertBrick_run. simpl. by rewrite attach_all_bricks. Qed.

(** The view an insertion leaves does not depend on the index. *)
Lemma insertBrick_view_any_index index index' bricks h :
  _view (self (after (insertBrick index bricks) h))
  = _view (self (after (insertBrick index' bricks) h)).
Proof.
  unfold after. rewrite !insertBrick_run. simpl.
  generalize (splice index 0 bricks (_bricks (self h))).
  generalize (splice index' 0 bricks (_bricks (self h))).
  destruct h as [t p m]. simpl. revert p m.
  induction bricks as [|b rest IH]; intros p m l l'; [done|].
  simpl. unfold attach at 2 4. simpl.
  apply (IH (with_view _ p)).
Qed.

Lemma forEach_ext {A} (f g : A -> Method V unit) (array : list A) h :
  (forall x h', f x h' = g x h') -> forEach f array h = forEach g array h.
Proof.
  intros Hfg. revert h. induction array as [|x rest IH]; intros h; [done|].
  simpl. unfold mbind, Method_bind, bind. rewrite Hfg.
  destruct (g x h) as [[e|[]] h']; [done|]. apply IH.
Qed.

Lemma removeBrick_run elements h :
  removeBrick elements h
  = forEach removal (sort_descending (targets (_bricks (self h)) elements)) h.
Proof.
  unfold removeBrick, getBricks, get_self, mbind at 1 2, Method_bind, bind.
  simpl. apply forEach_ext. intros index h'.
  unfold removal, mbind, Method_bind, bind, mret, Method_ret, ret. simpl.
  destruct (get (_bricks (self h')) index) as [brick|]; [|done].
  unfold Brick_setPipe, update. simpl. rewrite !getView_run. reflexivity.
Qed.

(** Rounds at positions that go strictly down all find their Brick,
    and leave the bricks at the other positions. *)
Lemma removals_descending indexes h :
  StronglySorted descending indexes ->
  NoDup indexes ->
  Forall (is_position (_bricks (self h))) indexes ->
  (forEach removal indexes h).1 = inr tt
  /\ _bricks (self (forEach removal indexes h).2)
     = omit indexes (_bricks (self h)).
Proof.
  revert h. induction indexes as [|index rest IH]; intros h Hs Hn Hp.
  { simpl. split; [done|]. unfold omit. by rewrite omit_from_below. }
  pose proof (descending_strict _ _ Hs Hn) as Hlt.
  apply StronglySorted_inv in Hs as [Hs _].
  apply NoDup_cons in Hn as [_ Hn].
  apply Forall_cons in Hp as [Hi Hp].
  simpl. unfold mbind, Method_bind, bind, removal at 1 3.
  destruct (get (_bricks (self h)) index) as [brick|] eqn:Hget;
    [| by apply get_None in Hget].
  destruct (IH (detach index brick h)) as [Hret Hbricks]; [done|done| |].
  { simpl. rewrite splice_one by done. rewrite Forall_forall in *.
    intros i Hin. specialize (Hlt i Hin). specialize (Hp i Hin).
    apply get_Some in Hget as [_ Hget].
    unfold is_position in *. rewrite length_delete by eauto.
    apply lookup_lt_Some in Hget. lia. }
  destruct (forEach removal rest (detach index brick h)) as [[e|[]] h'] eqn:Hloop;
    simpl in *; [done|].
  split; [done|]. rewrite Hbricks, splice_one by done.
  unfold omit. rewrite <- omit_from_delete.
  - by rewrite Z.sub_0_r.
  - unfold is_position in Hi. lia.
  - done.
Qed.

(** A negative index among the rounds is never a position: the loop
    throws at it, if not before. *)
Lemma removals_negative indexes h :
  (exists i, i ∈ indexes /\ i < 0) ->
  throws (forEach removal indexes h).1 = true.
Proof.
  revert h. induction indexes as [|index rest IH]; intros h [i [Hin Hneg]].
  { by apply elem_of_nil in Hin. }
  simpl. unfold mbind, Method_bind, bind, removal at 1.
  destruct (get (_bricks (self h)) index) as [brick|] eqn:Hget; [|done].
  apply get_Some in Hget as [Hpos _].
  apply elem_of_cons in Hin as [->|Hin].
  { unfold is_position in Hpos. lia. }
  specialize (IH (detach index brick h)).
  destruct (forEach removal rest (detach index brick h)) as [[e|[]] h']; [done|].
  apply IH. eauto.
Qed.

(** An index past the end among rounds that go down: the first
    round throws. *)
Lemma removals_beyond indexes h :
  StronglySorted descending indexes ->
  (exists i, i ∈ indexes /\ Z.of_nat (length (_bricks (self h))) <= i) ->
  throws (forEach removal indexes h).1 = true.
Proof.
  intros Hs [i [Hin Hbig]]. destruct indexes as [|index rest].
  { by apply elem_of_nil in Hin. }
  apply StronglySorted_inv in Hs as [_ Hle].
  assert (i <= index) as Hi.
  { apply elem_of_cons in Hin as [->|Hin]; [lia|].
    rewrite Forall_forall in Hle. by apply Hle. }
  simpl. unfold mbind, Method_bind, bind, removal at 1.
  destruct (get (_bricks (self h)) index) as [brick|] eqn:Hget; [|done].
  apply get_Some in Hget as [Hpos _]. unfold is_position in Hpos. lia.
Qed.
End Runs.
End PipeRuns.

(** ** Properties of the Pipe class *)
Module PipeProperties.
Import JSArray Pipe ArrayFacts PipeRuns.

Import Examples.

Section Properties.
Context {V : Type} `{ViewSurface V}.
Implicit Types (h : Heap V) (bricks : list Brick) (elements : list Element).

Lemma indexOf_absent bricks (brick : Brick) :
  brick ∉ bricks -> indexOf bricks brick = -1.
Proof.
  induction bricks as [|b rest IH]; intros Hnot; [done|]. simpl.
  apply not_elem_of_cons in Hnot as [Hne Hnot].
  rewrite decide_False by done. by rewrite IH.
Qed.

Lemma targets_absent bricks brick elements :
  brick ∉ bricks -> targets bricks (ElBrick brick :: elements) = targets bricks elements.
Proof.
  intros Hnot. unfold targets. simpl. rewrite indexOf_absent by done.
  by rewrite filter_cons_False by (intros Hne; by apply Hne).
Qed.

Lemma targets_not_found bricks elements :
  targets bricks (ElIndex (-1) :: elements) = targets bricks elements.
Proof.
  unfold targets. simpl.
  by rewrite filter_cons_False by (intros Hne; by apply Hne).
Qed.

Lemma targets_perm bricks elements elements' :
  elements' ≡ₚ elements -> targets bricks elements' ≡ₚ targets bricks elements.
Proof. intros Hp. unfold targets. by rewrite Hp. Qed.

(** When all targets are positions, they are the valid targets. *)
Lemma valid_targets_all bricks elements :
  Forall (is_position bricks) (targets bricks elements) ->
  forall i, i ∈ targets bricks elements <-> i ∈ valid_targets bricks elements.
Proof.
  intros Hall i. unfold targets, valid_targets in *.
  rewrite Forall_forall in Hall. rewrite !list_elem_of_filter. split.
  - intros [Hne Hin]. split; [|done]. apply Hall. by apply list_elem_of_filter.
  - intros [Hpos Hin]. split; [|done]. unfold is_position in Hpos. lia.
Qed.

Lemma removeBrick_positions elements h :
  Forall (is_position (_bricks (self h))) (targets (_bricks (self h)) elements) ->
  NoDup (targets (_bricks (self h)) elements) ->
  (removeBrick elements h).1 = inr tt
  /\ _bricks (self (after (removeBrick elements) h))
     = omit (targets (_bricks (self h)) elements) (_bricks (self h)).
Proof.
  intros Hvalid Hdistinct. unfold after. rewrite removeBrick_run.
  destruct (removals_descending
              (sort_descending (targets (_bricks (self h)) elements)) h)
    as [Hret Hbricks].
  - apply sort_descending_sorted.
  - by rewrite sort_descending_perm.
  - by rewrite sort_descending_perm.
  - split; [done|]. rewrite Hbricks. apply omit_from_ext.
    intros i. by rewrite sort_descending_perm.
Qed.

(** A target that is not a position makes [removeBrick] throw. *)
Lemma removeBrick_throws elements h :
  ~ Forall (is_position (_bricks (self h))) (targets (_bricks (self h)) elements) ->
  throws (removeBrick elements h).1 = true.
Proof.
  intros Hnot. apply not_Forall_Exists in Hnot; [|apply _].
  apply Exists_exists in Hnot as [i [Hin Hbad]]. simpl in Hbad.
  rewrite removeBrick_run.
  rewrite <- (sort_descending_perm (targets _ _)) in Hin.
  unfold is_position in Hbad.
  destruct (decide (i < 0)).
  - apply removals_negative. eauto.
  - apply removals_beyond; [apply sort_descending_sorted|].
    exists i. split; [done|lia].
Qed.

(** C3, amended. Brick references that are not in the Pipe and the
    index -1 are dropped: the call is the call without them. Every
    other index is kept. If no position is named twice, then: when
    all of them are positions of the brick sequence, [removeBrick]
    returns and leaves the Bricks that are not at those positions,
    in their order, and so does the call with the arguments in any
    other order; when one of them is no position, [removeBrick]
    throws. *)
Theorem removeBrick_removes_targets (h : Heap V) (elements : list Element)
  (Hdistinct : NoDup (targets (_bricks (self h)) elements)) :
  (Forall (is_position (_bricks (self h))) (targets (_bricks (self h)) elements) ->
   removes_valid_targets elements h
   /\ forall elements', elements' ≡ₚ elements ->
        (removeBrick elements' h).1 = inr tt
        /\ _bricks (self (after (removeBrick elements') h))
           = _bricks (self (after (removeBrick elements) h)))
  /\ (~ Forall (is_position (_bricks (self h))) (targets (_bricks (self h)) elements) ->
      throws (removeBrick elements h).1 = true)
  /\ (forall brick, brick ∉ _bricks (self h) ->
        removeBrick (ElBrick brick :: elements) h = removeBrick elements h)
  /\ removeBrick (ElIndex (-1) :: elements) h = removeBrick elements h.
Proof.
  split; [intros Hvalid | split; [apply removeBrick_throws | split]].
  - destruct (removeBrick_positions elements h Hvalid Hdistinct) as [Hret Hbricks].
    split; [split | intros elements' Hperm; split].
    + by rewrite Hret.
    + rewrite Hbricks. apply omit_from_ext. by apply valid_targets_all.
    + apply removeBrick_positions; by rewrite targets_perm.
    + rewrite Hbricks.
      destruct (removeBrick_positions elements' h) as [_ ->];
        [by rewrite targets_perm..|].
      apply omit_from_ext. intros i. by rewrite targets_perm.
  - intros brick Hnot. rewrite !removeBrick_run. by rewrite targets_absent.
  - rewrite !removeBrick_run. by rewrite targets_not_found.
Qed.

(** C5. An [insertBrick] of at least one Brick constructs the view:
    the guard of its loop is a call of [getView]. *)
Theorem insertBrick_constructs_view (h : Heap V) (index : Z)
  (brick : Brick) (bricks : list Brick) :
  is_Some (_view (self (after (insertBrick index (brick :: bricks)) h))).
Proof. unfold after. rewrite insertBrick_run. apply attach_all_view. Qed.

(** C2. On a Pipe whose last Brick is [x], [addBrick] puts the
    Bricks before [x], not after it. *)
Theorem addBrick_before_last (t : Ref) (before : list Brick) (x : Brick)
  (title description : Value) (view : option V) (m : gmap Brick Ref)
  (bricks : list Brick) :
  _bricks (self (after (addBrick bricks)
             (mkHeap t (mkPipe (before ++ [x]) title description view) m)))
  = before ++ bricks ++ [x].
Proof.
  unfold addBrick. rewrite insertBrick_bricks. simpl. apply splice_minus_one.
Qed.

Section Serialization.
Context {D : Type} `{BrickCodec D}.

Lemma member_add_undefined :
  member_of (prototype (V:=V)) "add" = None.
Proof. reflexivity. Qed.

(** [Pipe.extract] never returns a Pipe. *)
Lemma extract_never_returns (address : Ref) (data : PipeData D) :
  throws (extract (V:=V) address data) = true.
Proof.
  unfold extract. destruct (bricks data) as [items|]; [|done].
  destruct (extract_bricks items); [done|]. reflexivity.
Qed.

(** When the Bricks all extract, what is thrown is the TypeError of
    calling [apply] on the undefined [pipe.add]. *)
Lemma extract_no_add (address : Ref) (data : PipeData D) items extracted :
  bricks data = IsArray items ->
  extract_bricks items = inr extracted ->
  extract (V:=V) address data
  = inl (TypeError "Cannot read property 'apply' of undefined").
Proof. intros Hb He. unfold extract. rewrite Hb, He. reflexivity. Qed.

(** C1. [Pipe.extract(p.serialize())] throws for every Pipe, so the
    round trip yields no Pipe. *)
Theorem extract_serialize_throws (address : Ref) (p : Pipe V) :
  throws (extract (V:=V) address (serialize p)) = true.
Proof. apply extract_never_returns. Qed.
End Serialization.

(** Whatever the view does with a subview, it is not told the index:
    inserting a second Brick before or after the first leaves the
    same view, which cannot be aligned with both brick sequences. *)
Lemma no_view_follows_the_index (h : Heap V) (b1 b2 : Brick) :
  b1 <> b2 ->
  _bricks (self h) = [b1] ->
  ~ (view_aligned (self (after (insertBrick 0 [b2]) h))
     /\ view_aligned (self (after (insertBrick 1 [b2]) h))).
Proof.
  intros Hne Hb [H0 H1]. unfold view_aligned, aligned in *.
  rewrite (insertBrick_view_any_index 0 1) in H0.
  rewrite !insertBrick_bricks, Hb in *.
  destruct (_view _) as [view|]; [|done].
  rewrite H0 in H1. vm_compute in H1. congruence.
Qed.

Section Aligned.
Context `{!ViewLaws V}.

Lemma view_aligned_materialized (p : Pipe V) :
  view_aligned p <->
  is_Some (_view p) /\ subviews (materialized p) = Brick_getView <$> _bricks p.
Proof.
  unfold view_aligned, aligned, materialized.
  destruct (_view p) as [view|]; split.
  - intros Ha. split; [eauto|done].
  - by intros [_ Ha].
  - done.
  - by intros [[? ?] _].
Qed.

Lemma without_delete (bricks : list Brick) (i : nat) (brick : Brick) :
  NoDup bricks ->
  bricks !! i = Some brick ->
  without (Brick_getView brick) (Brick_getView <$> bricks)
  = Brick_getView <$> delete i bricks.
Proof.
  revert i. induction bricks as [|b rest IH]; intros i Hn Hi; [done|].
  apply NoDup_cons in Hn as [Hnot Hn].
  destruct i as [|i]; simpl in *.
  - injection Hi as ->. by rewrite decide_True.
  - rewrite decide_False.
    + f_equal. by apply IH.
    + intros [= ->]. apply Hnot. by eapply list_elem_of_lookup_2.
Qed.

Lemma removal_keeps (index : Z) (h : Heap V) :
  view_aligned (self h) /\ NoDup (_bricks (self h)) ->
  view_aligned (self (removal index h).2)
  /\ NoDup (_bricks (self (removal index h).2)).
Proof.
  intros [Ha Hn]. unfold removal.
  destruct (get (_bricks (self h)) index) as [brick|] eqn:Hget; [|done].
  apply get_Some in Hget as [Hpos Hget]. simpl.
  rewrite splice_one by done. split.
  - apply view_aligned_materialized in Ha as [_ Ha].
    unfold view_aligned, aligned. simpl.
    rewrite subviews_remove, Ha. by apply without_delete.
  - exact (sublist_NoDup _ _ Hn (sublist_delete _ _)).
Qed.

Lemma removeBrick_keeps (elements : list Element) (h : Heap V) :
  view_aligned (self h) /\ NoDup (_bricks (self h)) ->
  view_aligned (self (after (removeBrick elements) h))
  /\ NoDup (_bricks (self (after (removeBrick elements) h))).
Proof.
  intros Hk. unfold after. rewrite removeBrick_run.
  apply (forEach_keeps removal
           (fun h' => view_aligned (self h') /\ NoDup (_bricks (self h'))));
    [|done].
  intros index h'. apply removal_keeps.
Qed.

Lemma attach_all_subviews (bricks : list Brick) (h : Heap V) :
  subviews (materialized (self (foldl (fun h' brick => attach brick h') h bricks)))
  = subviews (materialized (self h)) ++ (Brick_getView <$> bricks).
Proof.
  revert h. induction bricks as [|b rest IH]; intros h; simpl.
  - by rewrite app_nil_r.
  - rewrite IH. unfold materialized at 1. simpl.
    by rewrite subviews_add, <- app_assoc.
Qed.

Lemma attach_all_keeps_view (bricks : list Brick) (h : Heap V) :
  is_Some (_view (self h)) ->
  is_Some (_view (self (foldl (fun h' brick => attach brick h') h bricks))).
Proof.
  revert h. induction bricks as [|b rest IH]; intros h Hs; [done|].
  simpl. apply IH. simpl. eauto.
Qed.

(** An insertion adds the views of the Bricks at the end of the
    child list, whatever the index. *)
Lemma insertBrick_subviews (index : Z) (bricks : list Brick) (h : Heap V) :
  subviews (materialized (self (after (insertBrick index bricks) h)))
  = subviews (materialized (self h)) ++ (Brick_getView <$> bricks).
Proof. unfold after. rewrite insertBrick_run. simpl. by rewrite attach_all_subviews. Qed.

Lemma insertBrick_keeps (index : Z) (bricks : list Brick) (h : Heap V) :
  view_aligned (self h) /\ NoDup (_bricks (self h)) ->
  appends_new index bricks (self h) ->
  view_aligned (self (after (insertBrick index bricks) h))
  /\ NoDup (_bricks (self (after (insertBrick index bricks) h))).
Proof.
  intros [Ha Hn] [Htail Hnew].
  rewrite insertBrick_bricks, splice_at_tail by done. split; [|done].
  apply view_aligned_materialized in Ha as [Hs Ha].
  apply view_aligned_materialized. split.
  - unfold after. rewrite insertBrick_run. simpl.
    by apply attach_all_keeps_view.
  - rewrite insertBrick_subviews, insertBrick_bricks, splice_at_tail by done.
    by rewrite Ha, fmap_app.
Qed.

Lemma getView_keeps (h : Heap V) :
  view_aligned (self h) /\ NoDup (_bricks (self h)) ->
  view_aligned (self (after (_ ← getView; mret tt) h))
  /\ NoDup (_bricks (self (after (_ ← getView; mret tt) h))).
Proof.
  intros [Ha Hn]. unfold after, mbind, Method_bind, bind.
  rewrite getView_run. simpl. split; [|done].
  unfold view_aligned, materialized in *. simpl.
  by destruct (_view (self h)).
Qed.

Lemma observations_keep (calls : list Call) (h : Heap V) :
  view_aligned (self h) /\ NoDup (_bricks (self h)) ->
  insertions_append calls h ->
  Forall (fun h' => view_aligned (self h') /\ NoDup (_bricks (self h')))
         (observations calls h).
Proof.
  revert h. induction calls as [|c rest IH]; intros h Hk Happ; [constructor|].
  destruct Happ as [Hc Hrest]. simpl.
  assert (view_aligned (self (after (perform c) h))
          /\ NoDup (_bricks (self (after (perform c) h)))) as Hk'.
  { destruct c as [index bricks|elements|]; simpl.
    - by apply insertBrick_keeps.
    - by apply removeBrick_keeps.
    - by apply getView_keeps. }
  constructor; [done|]. by apply IH.
Qed.

(** C4, amended. On a Pipe whose view exists and is aligned with a
    brick sequence without duplicates, a sequence of calls in which
    every [insertBrick] appends distinct new Bricks keeps the child
    list aligned with the bricks at every observation point,
    whatever is removed in between; an [insertBrick] at any index
    adds the child views at the end of the child list. *)
Theorem appending_keeps_view_aligned (h : Heap V) (calls : list Call)
  (Haligned : view_aligned (self h))
  (Hdistinct : NoDup (_bricks (self h)))
  (Happend : insertions_append calls h) :
  stays_aligned calls h
  /\ forall index bricks,
       subviews (materialized (self (after (insertBrick index bricks) h)))
       = subviews (materialized (self h)) ++ (Brick_getView <$> bricks).
Proof.
  split; [|intros; apply insertBrick_subviews].
  unfold stays_aligned. eapply Forall_impl.
  - by apply observations_keep.
  - by intros h' [? _].
Qed.
End Aligned.
End Properties.

#[global] Instance ListView_laws : ViewLaws ListView.
Proof. by split. Qed.

(** C4, as stated, fails: a Brick inserted at index 0 of a Pipe that
    shows one Brick gets its view appended, so the child at position 0
    is still the view of the old Brick. *)
Lemma insertBrick_front_misaligns :
  view_aligned (self one_brick_shown)
  /\ ~ stays_aligned [CallInsertBrick 0 [2%nat]] one_brick_shown.
Proof.
  split; [reflexivity|]. intros Hall.
  apply Forall_cons in Hall as [Ha _]. vm_compute in Ha. discriminate Ha.
Qed.

Lemma appending_keeps_view_aligned_witness :
  stays_aligned
    [CallInsertBrick 1 [2; 3]%nat; CallRemoveBrick [ElBrick 1%nat; ElIndex (-1)];
     CallGetView; CallInsertBrick 2 [4%nat]; CallRemoveBrick [ElIndex 7];
     CallInsertBrick 9 [1%nat]]
    one_brick_shown.
Proof.
  apply (appending_keeps_view_aligned (ViewLaws0:=ListView_laws) one_brick_shown).
  - reflexivity.
  - apply (bool_decide_unpack _). vm_compute. exact I.
  - repeat split; apply (bool_decide_unpack _); vm_compute; exact I.
Defined.

(** The round trip of a Pipe of three Bricks that all extract. *)
Example extract_round_trip_throws :
  extract (V:=ListView) 5%nat (serialize (self three_bricks))
  = inl (TypeError "Cannot read property 'apply' of undefined").
Proof. reflexivity. Qed.

(** [addBrick] on a Pipe of one Brick. *)
Example addBrick_on_one_brick :
  _bricks (self (after (addBrick [2%nat]) one_brick_shown)) = [2; 1]%nat.
Proof. reflexivity. Qed.

(** A new Pipe has no view; after one insertion it has. *)
Example insertBrick_on_new_pipe :
  _view (self empty_pipe) = None
  /\ _view (self (after (insertBrick 0 [1%nat]) empty_pipe)) = Some [ViewOf 1%nat].
Proof. split; reflexivity. Qed.

(** A removal constructs the view as well. *)
Example removeBrick_without_view :
  _view (self three_bricks) = None
  /\ _view (self (after (removeBrick [ElIndex 0]) three_bricks)) = Some [].
Proof. split; reflexivity. Qed.

(** C3, as stated, fails on the example of the specification: the
    index 99999 is not dropped, the loop reads [setPipe] off
    [undefined] at it and the call throws. *)
Lemma removeBrick_out_of_range_throws :
  ~ removes_valid_targets [ElIndex 99999; ElBrick 2%nat; ElIndex (-1)] three_bricks.
Proof. intros [Hret _]. vm_compute in Hret. discriminate Hret. Qed.

(** A position named twice is removed twice: the Brick that moves up
    to it goes as well. *)
Example removeBrick_same_brick_twice :
  _bricks (self (after (removeBrick [ElBrick 2%nat; ElBrick 2%nat]) three_bricks))
  = [1%nat].
Proof. reflexivity. Qed.

Lemma removeBrick_removes_targets_witness :
  _bricks (self (after (removeBrick [ElBrick 9%nat; ElIndex 2; ElIndex (-1); ElBrick 1%nat])
                       three_bricks)) = [2%nat]
  /\ _bricks (self (after (removeBrick [ElBrick 1%nat; ElIndex (-1); ElBrick 9%nat; ElIndex 2])
                       three_bricks)) = [2%nat].
Proof.
  destruct (removeBrick_removes_targets three_bricks
              [ElBrick 9%nat; ElIndex 2; ElIndex (-1); ElBrick 1%nat])
    as (Hremoves & _).
  - apply (bool_decide_unpack _). vm_compute. exact I.
  - destruct Hremoves as ([_ Hbricks] & Horder).
    + apply (bool_decide_unpack _). vm_compute. exact I.
    + split.
      * rewrite Hbricks. reflexivity.
      * destruct (Horder [ElBrick 1%nat; ElIndex (-1); ElBrick 9%nat; ElIndex 2])
          as [_ ->].
        -- apply (bool_decide_unpack _). vm_compute. exact I.
        -- rewrite Hbricks. reflexivity.
Defined.
End PipeProperties.

(** ** More on the Setting class *)
Module SettingExtras.
Import Setting SettingProperties.

(** What [setValue] leaves when the value is valid and changed. *)
Lemma setValue_changed raw sender s :
  validateValue s raw = true ->
  strict_neq (getValue s) (filtered s raw) = true ->
  setValue raw sender s
  = (with_fields (mkFields (getName s) (filtered s raw) true (getDelegate s)) s,
     if hasDelegate s && negb (bool_decide (getDelegate s = sender))
     then notify (getDelegate s)
            (mkFields (getName s) (filtered s raw) true (getDelegate s))
            (filtered s raw)
     else []).
Proof.
  intros Hv Hc. unfold filtered, getValue in Hc. unfold setValue.
  rewrite Hv in *. simpl. rewrite Hc.
  unfold hasDelegate, getDelegate. simpl.
  unfold filtered. rewrite Hv. by case_match.
Qed.

(** X1. A valid value whose filtered form differs from the stored value
    is stored, and a delegate that is not the sender is called exactly
    once, with the Setting already valid and holding the new value, and
    with that value as the argument. *)
Theorem setValue_notifies_delegate (s : Setting) (raw : Value)
  (sender : option Ref) (d : Ref)
  (Hvalid : validateValue s raw = true)
  (Hchanged : strict_neq (getValue s) (filtered s raw) = true)
  (Hdelegate : getDelegate s = Some d)
  (Hsender : sender <> Some d) :
  (setValue raw sender s).2
  = [settingValueDidChange d
       (mkFields (getName s) (filtered s raw) true (Some d)) (filtered s raw)]
  /\ fields (setValue raw sender s).1
     = mkFields (getName s) (filtered s raw) true (Some d).
Proof.
  rewrite setValue_changed by done. unfold hasDelegate.
  unfold getDelegate in *. rewrite Hdelegate.
  rewrite (bool_decide_eq_false_2 (Some d = sender)) by congruence. done.
Qed.

Lemma setValue_notifies_delegate_witness :
  (setValue (VString "b") (Some 2%nat)
     (setDelegate (Some 1%nat) (new "letter" (Some (mkSpec (VString "a") None None None))))).2
  = [settingValueDidChange 1%nat
       (mkFields "letter" (VString "b") true (Some 1%nat)) (VString "b")].
Proof.
  apply (setValue_notifies_delegate
           (setDelegate (Some 1%nat)
              (new "letter" (Some (mkSpec (VString "a") None None None))))
           (VString "b") (Some 2%nat) 1%nat eq_refl eq_refl eq_refl).
  discriminate.
Defined.

(** X2. One [setValue] calls the delegate at most once, and whenever it
    does, the Setting is valid and the fields and the value handed over
    are those the call leaves. *)
Theorem setValue_calls_at_most_once (s : Setting) (raw : Value)
  (sender : option Ref) :
  (length (setValue raw sender s).2 <= 1)%nat
  /\ forall n, n ∈ (setValue raw sender s).2 ->
       of_setting n = fields (setValue raw sender s).1
       /\ new_value n = getValue (setValue raw sender s).1
       /\ isValid (setValue raw sender s).1 = true.
Proof.
  unfold setValue, notify, isValid, getValue, getDelegate. simpl.
  destruct (validateValue s raw) eqn:Hv; simpl.
  - repeat case_match; simpl; (split; [lia|]); intros n Hn;
      try (by apply elem_of_nil in Hn);
      apply list_elem_of_singleton in Hn as ->; done.
  - split; [lia|]. intros n Hn. by apply elem_of_nil in Hn.
Qed.

Lemma setValue_calls_at_most_once_witness :
  (length (setValue (VNumber 3) None
             (setDelegate (Some 1%nat) (new "shift" None))).2 <= 1)%nat.
Proof.
  apply (setValue_calls_at_most_once
           (setDelegate (Some 1%nat) (new "shift" None)) (VNumber 3) None).
Defined.

(** X3. [setValue], and with it [revalidateValue], [randomize] and
    [extractValue], never touches the name, the delegate or the three
    callbacks. *)
Theorem setValue_keeps_identity (s : Setting) (raw : Value) (sender : option Ref)
  (random : option Random) :
  let kept (s' : Setting) :=
    getName s' = getName s
    /\ getDelegate s' = getDelegate s
    /\ _validateValueCallback s' = _validateValueCallback s
    /\ _filterValueCallback s' = _filterValueCallback s
    /\ _randomizeValueCallback s' = _randomizeValueCallback s in
  kept (setValue raw sender s).1
  /\ kept (revalidateValue s).1
  /\ kept (randomize random s).1
  /\ kept (extractValue raw s).1.
Proof.
  assert (forall raw sender,
    getName (setValue raw sender s).1 = getName s
    /\ getDelegate (setValue raw sender s).1 = getDelegate s
    /\ _validateValueCallback (setValue raw sender s).1 = _validateValueCallback s
    /\ _filterValueCallback (setValue raw sender s).1 = _filterValueCallback s
    /\ _randomizeValueCallback (setValue raw sender s).1 = _randomizeValueCallback s)
    as Hkept.
  { intros raw' sender'. unfold setValue, getName, getDelegate. simpl.
    repeat case_match; simpl; done. }
  simpl. unfold revalidateValue, randomize, extractValue.
  split; [|split; [|split]]; apply Hkept.
Qed.

(** X4. Whatever state the Setting is in, also an invalid one, a value
    that validates makes it valid and is stored in its filtered form. *)
Theorem setValue_valid_stores_filtered (s : Setting) (raw : Value)
  (sender : option Ref)
  (Hvalid : validateValue s raw = true) :
  isValid (setValue raw sender s).1 = true
  /\ getValue (setValue raw sender s).1 = filtered s raw.
Proof.
  split.
  - by rewrite isValid_setValue.
  - by apply getValue_setValue_valid.
Qed.

Lemma setValue_valid_stores_filtered_witness :
  let only_numbers : Fields -> Value -> bool :=
    fun _ v => String.eqb (typeof v) "number" in
  let rejected := (setValue (VString "abc") None
                     (new "shift" (Some (mkSpec VUndefined (Some only_numbers) None None)))).1 in
  isValid rejected = false
  /\ isValid (setValue (VNumber 5) None rejected).1 = true
  /\ getValue (setValue (VNumber 5) None rejected).1 = VNumber 5.
Proof.
  intros only_numbers rejected. split; [reflexivity|].
  apply (setValue_valid_stores_filtered rejected (VNumber 5) None eq_refl).
Defined.

(** Without a filter callback the filtered form is the raw value. *)
Lemma filtered_without_filter s raw :
  _filterValueCallback s = None -> filtered s raw = raw.
Proof. intros Hf. unfold filtered, filterValue. simpl. by rewrite Hf. Qed.

(** Revalidation without a filter, of a value other than NaN. *)
Lemma revalidateValue_keeps s :
  _filterValueCallback s = None ->
  getValue s <> VNaN ->
  revalidateValue s
  = (with_fields (set_valid (validateValue s (getValue s)) (fields s)) s, []).
Proof.
  intros Hf Hn. unfold revalidateValue.
  destruct (validateValue s (getValue s)) eqn:Hv.
  - rewrite setValue_unchanged; [done|done|].
    rewrite filtered_without_filter by done. by apply strict_eq_refl.
  - unfold setValue. rewrite Hv. simpl. unfold getValue.
    by destruct s as [[] ? ? ?].
Qed.

(** X5. On a Setting without a filter callback whose value is not NaN,
    [revalidateValue] only writes the flag: the value stays, nobody is
    called, and the Setting is valid exactly when the validation accepts
    the value it holds. *)
Theorem revalidateValue_only_flags (s : Setting)
  (Hfilter : _filterValueCallback s = None)
  (Hnumber : getValue s <> VNaN) :
  getValue (revalidateValue s).1 = getValue s
  /\ (revalidateValue s).2 = []
  /\ isValid (revalidateValue s).1 = validateValue s (getValue s).
Proof. by rewrite revalidateValue_keeps. Qed.

Lemma revalidateValue_only_flags_witness :
  let never : Fields -> Value -> bool := fun _ _ => false in
  let s := setDelegate (Some 1%nat)
             (new "shift" (Some (mkSpec (VNumber 7) (Some never) None None))) in
  getValue (revalidateValue s).1 = VNumber 7
  /\ (revalidateValue s).2 = []
  /\ isValid (revalidateValue s).1 = false.
Proof.
  intros never s.
  apply (revalidateValue_only_flags s eq_refl). discriminate.
Defined.

(** X6. A Setting that holds NaN and accepts it reports a change at
    every [revalidateValue], though the value stays NaN: without a
    filter callback, a delegate is called with NaN each time. *)
Theorem revalidateValue_NaN_notifies (s : Setting) (d : Ref)
  (Hvalue : getValue s = VNaN)
  (Hvalid : validateValue s VNaN = true)
  (Hfilter : _filterValueCallback s = None)
  (Hdelegate : getDelegate s = Some d) :
  (revalidateValue s).2
  = [settingValueDidChange d (mkFields (getName s) VNaN true (Some d)) VNaN]
  /\ getValue (revalidateValue s).1 = VNaN.
Proof.
  unfold revalidateValue. rewrite Hvalue.
  rewrite setValue_changed; rewrite ?filtered_without_filter by done;
    [|done|by rewrite Hvalue].
  unfold hasDelegate. unfold getDelegate in *. rewrite Hdelegate. done.
Qed.

Lemma revalidateValue_NaN_notifies_witness :
  let s := setDelegate (Some 1%nat)
             (new "ratio" (Some (mkSpec VUndefined None None None))) in
  length ((revalidateValue (setValue VNaN None s).1).2) = 1%nat.
Proof.
  intros s.
  destruct (revalidateValue_NaN_notifies (setValue VNaN None s).1 1%nat
              eq_refl eq_refl eq_refl eq_refl) as [-> _].
  reflexivity.
Defined.

(** X7. Without a randomize callback [randomize] is [revalidateValue],
    whatever generator it is given; so on a Setting that has no filter
    callback either and does not hold NaN, it leaves the value and
    calls nobody. *)
Theorem randomize_leaves_value (s : Setting) (random : option Random)
  (Hrandomize : _randomizeValueCallback s = None)
  (Hfilter : _filterValueCallback s = None)
  (Hnumber : getValue s <> VNaN) :
  randomize random s = revalidateValue s
  /\ getValue (randomize random s).1 = getValue s
  /\ (randomize random s).2 = [].
Proof.
  assert (randomize random s = revalidateValue s) as ->.
  { unfold randomize, randomizeValue, revalidateValue. by rewrite Hrandomize. }
  by rewrite revalidateValue_keeps.
Qed.

Lemma randomize_leaves_value_witness :
  let s := setDelegate (Some 1%nat)
             (new "shift" (Some (mkSpec (VNumber 7) None None None))) in
  getValue (randomize (Some (GivenRandom 9%nat)) s).1 = VNumber 7
  /\ (randomize None s).2 = [].
Proof.
  intros s. split.
  - apply (randomize_leaves_value s (Some (GivenRandom 9%nat)) eq_refl eq_refl).
    discriminate.
  - apply (randomize_leaves_value s None eq_refl eq_refl). discriminate.
Defined.

(** What [serializeValue] returns is the value held, of a type it
    accepts. *)
Lemma serializeValue_returns s v :
  (serializeValue s).2 = inr v ->
  getValue s = v
  /\ (typeof v = "boolean" \/ typeof v = "number" \/ typeof v = "string").
Proof.
  unfold serializeValue.
  destruct (getValue s) eqn:Hv; simpl; intros [= <-]; split; auto.
Qed.

Lemma serializeValue_of_primitive s :
  typeof (getValue s) = "boolean" \/ typeof (getValue s) = "number"
  \/ typeof (getValue s) = "string" ->
  (serializeValue s).2 = inr (getValue s).
Proof.
  unfold serializeValue. intros [-> | [-> | ->]]; reflexivity.
Qed.

(** X8. Round trip of the value: what [serializeValue] returns for one
    Setting, [extractValue] stores in any Setting that accepts it and
    has no filter callback, which is then valid and serializes to the
    same value. *)
Theorem extractValue_serializeValue (s t : Setting) (v : Value)
  (Hserialized : (serializeValue s).2 = inr v)
  (Haccepted : validateValue t v = true)
  (Hfilter : _filterValueCallback t = None) :
  getValue (extractValue v t).1 = v
  /\ isValid (extractValue v t).1 = true
  /\ (serializeValue (extractValue v t).1).2 = inr v.
Proof.
  apply serializeValue_returns in Hserialized as [_ Htype].
  assert (getValue (extractValue v t).1 = v) as Hstored.
  { unfold extractValue. rewrite getValue_setValue_valid by done.
    by apply filtered_without_filter. }
  split; [done|]. split.
  - unfold extractValue. by rewrite isValid_setValue.
  - rewrite <- Hstored at 2. apply serializeValue_of_primitive.
    by rewrite Hstored.
Qed.

Lemma extractValue_serializeValue_witness :
  let s := new "alphabet" (Some (mkSpec (VString "abc") None None None)) in
  let t := new "alphabet" None in
  getValue (extractValue (VString "abc") t).1 = getValue s.
Proof.
  intros s t.
  apply (extractValue_serializeValue s t (VString "abc") eq_refl eq_refl eq_refl).
Defined.
End SettingExtras.

(** ** More on the Pipe class *)
Module PipeExtras.
Import JSArray Pipe ArrayFacts PipeRuns PipeProperties Examples.

Section Extras.
Context {V : Type} `{ViewSurface V}.
Implicit Types (h : Heap V) (bricks : list Brick) (elements : list Element).

Lemma heap_eta h : mkHeap (this h) (self h) (pipe_of h) = h.
Proof. by destruct h. Qed.

Lemma with_bricks_same (p : Pipe V) : with_bricks (_bricks p) p = p.
Proof. by destruct p. Qed.

Lemma splice_start_le (len : nat) (start : Z) : (splice_start len start <= len)%nat.
Proof. unfold splice_start. destruct (Z.ltb_spec start 0); lia. Qed.

(** An insertion splits the array at the start position. *)
Lemma splice_insert {A} (start : Z) (items array : list A) :
  splice start 0 items array
  = take (splice_start (length array) start) array ++ items
    ++ drop (splice_start (length array) start) array.
Proof.
  unfold splice.
  assert (splice_count (length array) (splice_start (length array) start) 0 = 0%nat) as ->.
  { unfold splice_count. pose proof (splice_start_le (length array) start). lia. }
  by rewrite Nat.add_0_r.
Qed.

Lemma splice_nothing {A} (start : Z) (array : list A) :
  splice start 0 [] array = array.
Proof. rewrite splice_insert. simpl. apply take_drop. Qed.

(** X9. [getView] is memoized: the first call stores the view it
    returns, and a second call returns the same view and changes
    nothing. *)
Theorem getView_memoized (h : Heap V) :
  _view (self (getView h).2) = Some (materialized (self h))
  /\ (getView h).1 = inr (materialized (self h))
  /\ getView (getView h).2 = getView h
  /\ _bricks (self (getView h).2) = _bricks (self h)
  /\ pipe_of (getView h).2 = pipe_of h.
Proof.
  rewrite !getView_run. simpl. repeat split.
Qed.

Lemma attach_all_this bricks h :
  this (foldl (fun h' brick => attach brick h') h bricks) = this h.
Proof. revert h. induction bricks as [|b rest IH]; intros h; [done|]. simpl. by rewrite IH. Qed.

Lemma attach_all_titles bricks h :
  _title (self (foldl (fun h' brick => attach brick h') h bricks)) = _title (self h)
  /\ _description (self (foldl (fun h' brick => attach brick h') h bricks))
     = _description (self h).
Proof.
  revert h. induction bricks as [|b rest IH]; intros h; [done|]. simpl.
  destruct (IH (attach b h)) as [-> ->]. done.
Qed.

Lemma attach_all_pipe_of bricks h (brick : Brick) :
  pipe_of (foldl (fun h' b => attach b h') h bricks) !! brick
  = if decide (brick ∈ bricks) then Some (this h) else pipe_of h !! brick.
Proof.
  revert h. induction bricks as [|b rest IH]; intros h.
  { destruct (decide (brick ∈ [])) as [Hin|_]; [by apply elem_of_nil in Hin|done]. }
  cbn [foldl]. rewrite IH.
  change (this (attach b h)) with (this h).
  change (pipe_of (attach b h)) with (<[b := this h]> (pipe_of h)).
  destruct (decide (brick ∈ rest)) as [Hin|Hnot].
  - rewrite decide_True; [done|]. apply elem_of_cons. by right.
  - destruct (decide (brick = b)) as [->|Hne].
    + rewrite decide_True by (apply elem_of_cons; by left).
      by rewrite lookup_insert_eq.
    + rewrite decide_False.
      * by rewrite lookup_insert_ne.
      * intros [?|?]%elem_of_cons; done.
Qed.

(** X10. [insertBrick] always returns; it puts the Bricks, in argument
    order, at the position [splice] starts at, between the Bricks before
    and after that position, so the Pipe grows by their number; every
    inserted Brick gets the Pipe in its pipe slot, and no other pipe
    slot, nor the title or the description, is written. *)
Theorem insertBrick_inserts (h : Heap V) (index : Z) (bricks : list Brick) :
  (insertBrick index bricks h).1 = inr tt
  /\ _bricks (self (after (insertBrick index bricks) h))
     = take (splice_start (length (_bricks (self h))) index) (_bricks (self h))
       ++ bricks
       ++ drop (splice_start (length (_bricks (self h))) index) (_bricks (self h))
  /\ length (_bricks (self (after (insertBrick index bricks) h)))
     = (length (_bricks (self h)) + length bricks)%nat
  /\ (forall brick,
        pipe_of (after (insertBrick index bricks) h) !! brick
        = if decide (brick ∈ bricks) then Some (this h) else pipe_of h !! brick)
  /\ _title (self (after (insertBrick index bricks) h)) = _title (self h)
  /\ _description (self (after (insertBrick index bricks) h)) = _description (self h).
Proof.
  split; [by rewrite insertBrick_run|].
  rewrite insertBrick_bricks, splice_insert.
  split; [done|]. split.
  { rewrite !length_app, length_take, length_drop.
    pose proof (splice_start_le (length (_bricks (self h))) index). lia. }
  unfold after. rewrite insertBrick_run. simpl.
  split; [intros brick; by rewrite attach_all_pipe_of|].
  apply (attach_all_titles bricks
           (mkHeap (this h) (with_bricks _ (self h)) (pipe_of h))).
Qed.

Lemma indexOf_first (before after_ : list Brick) (brick : Brick) :
  brick ∉ before ->
  indexOf (before ++ brick :: after_) brick = Z.of_nat (length before).
Proof.
  induction before as [|b rest IH]; intros Hnot; simpl.
  - by rewrite decide_True.
  - apply not_elem_of_cons in Hnot as [Hne Hnot].
    rewrite decide_False by done. rewrite IH by done.
    destruct (Z.eqb_spec (Z.of_nat (length rest)) (-1)); lia.
Qed.

Lemma indexOf_present bricks (brick : Brick) :
  brick ∈ bricks ->
  is_position bricks (indexOf bricks brick)
  /\ bricks !! Z.to_nat (indexOf bricks brick) = Some brick.
Proof.
  intros (before & after_ & -> & Hnot)%list_elem_of_split_l.
  rewrite indexOf_first by done. unfold is_position.
  rewrite Nat2Z.id, length_app. simpl. split; [lia|].
  by rewrite list_lookup_middle.
Qed.

Lemma indexOf_NoDup bricks (brick : Brick) (i : nat) :
  NoDup bricks -> bricks !! i = Some brick ->
  indexOf bricks brick = Z.of_nat i.
Proof.
  intros Hn Hi. pose proof (take_drop_middle _ _ _ Hi) as Hsplit.
  rewrite <- Hsplit. rewrite indexOf_first.
  - rewrite length_take. apply lookup_lt_Some in Hi. lia.
  - rewrite <- Hsplit in Hn. apply NoDup_app in Hn as (_ & Hdisj & _).
    intros Hin. apply (Hdisj _ Hin). apply elem_of_cons. by left.
Qed.

Lemma sort_descending_one (index : Z) : sort_descending [index] = [index].
Proof. apply Permutation_singleton_r, sort_descending_perm. Qed.

Lemma sort_descending_none : sort_descending [] = [].
Proof. reflexivity. Qed.

Lemma targets_nothing bricks elements :
  Forall (names_nothing bricks) elements -> targets bricks elements = [].
Proof.
  induction 1 as [|[brick|index] rest Hx _ IH]; [done| |]; simpl in Hx.
  - by rewrite targets_absent.
  - subst. by rewrite targets_not_found.
Qed.

(** X11. Calls that have nothing to do change nothing: [insertBrick]
    without Bricks, and [removeBrick] with arguments that are all
    Bricks outside the Pipe or the index -1, return and leave the heap
    as it was, without constructing a view. *)
Theorem nothing_to_do (h : Heap V) (index : Z) (elements : list Element)
  (Hnothing : Forall (names_nothing (_bricks (self h))) elements) :
  insertBrick index [] h = (inr tt, h)
  /\ removeBrick elements h = (inr tt, h).
Proof.
  split.
  - rewrite insertBrick_run. simpl. rewrite splice_nothing.
    by rewrite with_bricks_same, heap_eta.
  - rewrite removeBrick_run, targets_nothing by done. done.
Qed.

(** X12. [removeBrick(brick)] takes out the first occurrence of the
    Brick: the Bricks before and after it stay, its pipe slot is
    cleared, and the view, constructed if there was none, drops the
    view of the Brick. *)
Theorem removeBrick_first_occurrence (h : Heap V) (before after_ : list Brick)
  (brick : Brick)
  (Hbricks : _bricks (self h) = before ++ brick :: after_)
  (Hfirst : brick ∉ before) :
  removeBrick [ElBrick brick] h
  = (inr tt, detach (Z.of_nat (length before)) brick h)
  /\ _bricks (self (after (removeBrick [ElBrick brick]) h)) = before ++ after_
  /\ pipe_of (after (removeBrick [ElBrick brick]) h) !! brick = None
  /\ _view (self (after (removeBrick [ElBrick brick]) h))
     = Some (removeSubview (Brick_getView brick) (materialized (self h))).
Proof.
  assert (removeBrick [ElBrick brick] h
          = (inr tt, detach (Z.of_nat (length before)) brick h)) as Hrun.
  { rewrite removeBrick_run. unfold targets. simpl.
    rewrite Hbricks, indexOf_first by done.
    rewrite filter_cons_True by lia. rewrite filter_nil, sort_descending_one.
    simpl. unfold mbind, Method_bind, bind, removal.
    assert (get (_bricks (self h)) (Z.of_nat (length before)) = Some brick) as ->.
    { apply get_Some. unfold is_position. rewrite Hbricks, length_app, Nat2Z.id.
      simpl. split; [lia|]. by rewrite list_lookup_middle. }
    done. }
  unfold after. rewrite Hrun. simpl. split; [done|]. split; [|split; [|done]].
  - rewrite splice_one.
    + rewrite Nat2Z.id, Hbricks. apply delete_middle.
    + unfold is_position. rewrite Hbricks, length_app. simpl. lia.
  - apply lookup_delete_eq.
Qed.

(** The rounds of a removal that returns each take one Brick out. *)
Lemma removals_count indexes h :
  (forEach removal indexes h).1 = inr tt ->
  (length (_bricks (self (forEach removal indexes h).2)) + length indexes
   = length (_bricks (self h)))%nat.
Proof.
  revert h. induction indexes as [|index rest IH]; intros h; [simpl; lia|].
  simpl. unfold mbind, Method_bind, bind, removal at 1 3.
  destruct (get (_bricks (self h)) index) as [brick|] eqn:Hget; [|done].
  apply get_Some in Hget as [Hpos Hget].
  specialize (IH (detach index brick h)).
  destruct (forEach removal rest (detach index brick h)) as [[e|[]] h'];
    simpl in *; [done|].
  intros _. specialize (IH eq_refl). rewrite splice_one in IH by done.
  rewrite length_delete in IH by eauto.
  apply lookup_lt_Some in Hget. lia.
Qed.

(** X13. When [removeBrick] returns, it has taken out one Brick for
    every argument that is not dropped, also for a position named
    twice: the Pipe is shorter by the number of its targets. *)
Theorem removeBrick_count (h : Heap V) (elements : list Element)
  (Hreturns : (removeBrick elements h).1 = inr tt) :
  (length (_bricks (self (after (removeBrick elements) h)))
   + length (targets (_bricks (self h)) elements)
   = length (_bricks (self h)))%nat.
Proof.
  unfold after. rewrite removeBrick_run in *.
  rewrite <- (removals_count _ h Hreturns).
  by rewrite (Permutation_length (sort_descending_perm _)).
Qed.

Lemma removal_releases before slots index h :
  releases before slots h -> releases before slots (removal index h).2.
Proof.
  intros (Hsub & Hgone & Hout). unfold removal.
  destruct (get (_bricks (self h)) index) as [brick|] eqn:Hget; [|done].
  apply get_Some in Hget as [Hpos Hget]. unfold releases. simpl.
  rewrite splice_one by done. split; [|split].
  - etrans; [apply sublist_delete|done].
  - intros b Hb Hnot. destruct (decide (b = brick)) as [->|Hne].
    + apply lookup_delete_eq.
    + rewrite lookup_delete_ne by done. apply Hgone; [done|].
      intros Hin. apply Hnot.
      rewrite (delete_Permutation _ _ _ Hget) in Hin.
      apply elem_of_cons in Hin as [?|?]; done.
  - intros b Hb. rewrite lookup_delete_ne; [by apply Hout|].
    intros <-. apply Hb. eapply elem_of_sublist; [|done].
    by eapply list_elem_of_lookup_2.
Qed.

Lemma removeBrick_releases_all elements h :
  releases (_bricks (self h)) (pipe_of h) (after (removeBrick elements) h).
Proof.
  unfold after. rewrite removeBrick_run.
  apply (forEach_keeps removal (releases (_bricks (self h)) (pipe_of h))).
  - intros index h'. apply removal_releases.
  - split; [done|]. split; [intros; done|done].
Qed.

(** X14. Whatever its arguments, and also when it throws, [removeBrick]
    brings no Brick in and keeps the order of those that stay; every
    Brick that is gone has an empty pipe slot; and the pipe slot of a
    Brick that was not in the Pipe is not written. *)
Theorem removeBrick_releases (h : Heap V) (elements : list Element) :
  _bricks (self (after (removeBrick elements) h)) `sublist_of` _bricks (self h)
  /\ (forall brick,
        brick ∈ _bricks (self h) ->
        brick ∉ _bricks (self (after (removeBrick elements) h)) ->
        pipe_of (after (removeBrick elements) h) !! brick = None)
  /\ (forall brick,
        brick ∉ _bricks (self h) ->
        pipe_of (after (removeBrick elements) h) !! brick = pipe_of h !! brick).
Proof. apply removeBrick_releases_all. Qed.

(** Leaving out the positions of a set of elements is filtering them
    out. *)
Lemma omit_from_filter {A} (P : A -> Prop) `{!forall x, Decision (P x)}
  (position : Z) (indexes : list Z) (array : list A) :
  (forall (j : nat) x, array !! j = Some x ->
     (position + Z.of_nat j ∈ indexes <-> ~ P x)) ->
  omit_from position indexes array = filter P array.
Proof.
  revert position. induction array as [|x rest IH]; intros position Hpos; [done|].
  simpl. rewrite IH.
  - destruct (decide (position ∈ indexes)) as [Hin|Hnot].
    + rewrite filter_cons_False; [done|].
      apply (Hpos 0%nat x eq_refl). by rewrite Z.add_0_r.
    + rewrite filter_cons_True; [done|].
      destruct (decide (P x)) as [|Hn]; [done|]. exfalso. apply Hnot.
      specialize (Hpos 0%nat x eq_refl). rewrite Z.add_0_r in Hpos. by apply Hpos.
  - intros j y Hj. rewrite <- (Hpos (S j) y Hj).
    by replace (position + 1 + Z.of_nat j) with (position + Z.of_nat (S j)) by lia.
Qed.

Lemma targets_references bricks (references : list Brick) :
  (forall brick, brick ∈ references -> brick ∈ bricks) ->
  targets bricks (ElBrick <$> references) = indexOf bricks <$> references.
Proof.
  induction references as [|b rest IH]; intros Hin; [done|].
  unfold targets in *. simpl. rewrite filter_cons_True.
  - f_equal. apply IH. intros brick Hb. apply Hin, elem_of_cons. by right.
  - destruct (indexOf_present bricks b) as [Hpos _].
    + apply Hin, elem_of_cons. by left.
    + unfold is_position in Hpos. lia.
Qed.

(** Removal by reference from a Pipe without duplicates. *)
Lemma removeBrick_references_run (h : Heap V) (references : list Brick) :
  NoDup (_bricks (self h)) ->
  NoDup references ->
  (forall brick, brick ∈ references -> brick ∈ _bricks (self h)) ->
  (removeBrick (ElBrick <$> references) h).1 = inr tt
  /\ _bricks (self (after (removeBrick (ElBrick <$> references)) h))
     = filter (fun brick => brick ∉ references) (_bricks (self h)).
Proof.
  intros Hn Hrefs Hin.
  destruct (removeBrick_positions (ElBrick <$> references) h) as [Hret Hbricks].
  - rewrite targets_references by done. apply Forall_fmap, Forall_forall.
    intros b Hb. by apply indexOf_present, Hin.
  - rewrite targets_references by done. apply NoDup_fmap_2_strong; [|done].
    intros b1 b2 Hb1 Hb2 Heq.
    destruct (indexOf_present _ b1 (Hin _ Hb1)) as [_ H1].
    destruct (indexOf_present _ b2 (Hin _ Hb2)) as [_ H2].
    rewrite Heq in H1. congruence.
  - split; [done|]. rewrite Hbricks, targets_references by done.
    unfold omit. apply omit_from_filter. intros j x Hj. rewrite Z.add_0_l.
    rewrite list_elem_of_fmap. split.
    + intros (b & Hb & Hbin) Hnot.
      destruct (indexOf_present _ b (Hin _ Hbin)) as [_ Hlook].
      rewrite <- Hb, Nat2Z.id, Hj in Hlook. congruence.
    + intros Hx. destruct (decide (x ∈ references)) as [Hxin|]; [|done].
      exists x. split; [|done]. symmetry. by apply indexOf_NoDup.
Qed.

(** X15. Removal by reference: from a Pipe without duplicates,
    [removeBrick] called with distinct Bricks of the Pipe returns and
    leaves exactly the other Bricks, in their order, and the Bricks
    taken out have empty pipe slots. *)
Theorem removeBrick_references (h : Heap V) (references : list Brick)
  (Hpipe : NoDup (_bricks (self h)))
  (Hdistinct : NoDup references)
  (Hpresent : forall brick, brick ∈ references -> brick ∈ _bricks (self h)) :
  (removeBrick (ElBrick <$> references) h).1 = inr tt
  /\ _bricks (self (after (removeBrick (ElBrick <$> references)) h))
     = filter (fun brick => brick ∉ references) (_bricks (self h))
  /\ forall brick, brick ∈ references ->
       pipe_of (after (removeBrick (ElBrick <$> references)) h) !! brick = None.
Proof.
  destruct (removeBrick_references_run h references) as [Hret Hbricks]; try done.
  split; [done|]. split; [done|]. intros brick Hb.
  apply (removeBrick_releases_all (ElBrick <$> references) h); [by apply Hpresent|].
  rewrite Hbricks. rewrite list_elem_of_filter. by intros [? _].
Qed.

Lemma filter_all {A} (P : A -> Prop) `{!forall x, Decision (P x)} (l : list A) :
  Forall P l -> filter P l = l.
Proof.
  induction 1 as [|x rest Hx _ IH]; [done|].
  by rewrite filter_cons_True, IH.
Qed.

Lemma filter_none {A} (P : A -> Prop) `{!forall x, Decision (P x)} (l : list A) :
  Forall (fun x => ~ P x) l -> filter P l = [].
Proof.
  induction 1 as [|x rest Hx _ IH]; [done|].
  by rewrite filter_cons_False, IH.
Qed.

(** X16. Round trip of the structure: inserting distinct new Bricks at
    any index of a Pipe without duplicates and then removing them by
    reference gives back the brick sequence there was. *)
Theorem insert_then_remove (h : Heap V) (index : Z) (bricks : list Brick)
  (Hnew : NoDup (_bricks (self h) ++ bricks)) :
  (removeBrick (ElBrick <$> bricks) (after (insertBrick index bricks) h)).1 = inr tt
  /\ _bricks (self (after (removeBrick (ElBrick <$> bricks))
                      (after (insertBrick index bricks) h)))
     = _bricks (self h).
Proof.
  apply NoDup_app in Hnew as (Hold & Hdisjoint & Hbricks).
  set (k := splice_start (length (_bricks (self h))) index).
  assert (_bricks (self (after (insertBrick index bricks) h))
          = take k (_bricks (self h)) ++ bricks ++ drop k (_bricks (self h)))
    as Hinserted by (rewrite insertBrick_bricks; apply splice_insert).
  destruct (removeBrick_references_run (after (insertBrick index bricks) h) bricks)
    as [Hret Hleft].
  - rewrite Hinserted.
    rewrite <- (take_drop k (_bricks (self h))) in Hold, Hdisjoint.
    apply NoDup_app in Hold as (Htake & Hcross & Hdrop).
    apply NoDup_app. split; [done|]. split.
    + intros x Hx [Hin|Hin]%elem_of_app.
      * apply (Hdisjoint x); [|done]. apply elem_of_app. by left.
      * by apply (Hcross x).
    + apply NoDup_app. split; [done|]. split; [|done].
      intros x Hx Hin. apply (Hdisjoint x); [|done]. apply elem_of_app. by right.
  - done.
  - intros brick Hb. rewrite Hinserted. rewrite !elem_of_app. auto.
  - split; [done|]. rewrite Hleft, Hinserted, !filter_app.
    rewrite (filter_none _ bricks) by (apply Forall_forall; intros x Hx Hn; done).
    rewrite !filter_all.
    + apply take_drop.
    + apply Forall_forall. intros x Hx. apply Hdisjoint.
      eapply elem_of_sublist; [done|]. apply sublist_drop.
    + apply Forall_forall. intros x Hx. apply Hdisjoint.
      eapply elem_of_sublist; [done|]. apply sublist_take.
Qed.

Lemma NoDup_inserted (k : nat) (old bricks : list Brick) :
  NoDup (old ++ bricks) -> NoDup (take k old ++ bricks ++ drop k old).
Proof.
  intros Hn. eapply NoDup_Permutation_proper; [|exact Hn].
  rewrite <- (take_drop k old) at 3.
  rewrite <- !app_assoc. f_equiv. apply Permutation_app_comm.
Qed.

Lemma insertBrick_owns index bricks h :
  owns_bricks h ->
  NoDup (_bricks (self h) ++ bricks) ->
  owns_bricks (after (insertBrick index bricks) h).
Proof.
  intros [Hn Hslots] Hnew. unfold owns_bricks.
  rewrite insertBrick_bricks, splice_insert.
  split; [by apply NoDup_inserted|].
  unfold after. rewrite insertBrick_run. simpl.
  intros brick Hin. rewrite attach_all_pipe_of, attach_all_this. simpl.
  destruct (decide (brick ∈ bricks)); [done|]. apply Hslots.
  apply elem_of_app in Hin as [Hin|[Hin|Hin]%elem_of_app]; [|done|].
  - eapply elem_of_sublist; [done|]. apply sublist_take.
  - eapply elem_of_sublist; [done|]. apply sublist_drop.
Qed.

Lemma removal_owns index h :
  owns_bricks h -> owns_bricks (removal index h).2.
Proof.
  intros [Hn Hslots]. unfold removal.
  destruct (get (_bricks (self h)) index) as [brick|] eqn:Hget; [|done].
  apply get_Some in Hget as [Hpos Hget]. unfold owns_bricks. simpl.
  rewrite splice_one by done.
  pose proof (delete_Permutation _ _ _ Hget) as Hperm.
  rewrite Hperm in Hn. apply NoDup_cons in Hn as [Hnot Hn].
  split; [done|]. intros b Hb. rewrite lookup_delete_ne.
  - apply Hslots. rewrite Hperm. apply elem_of_cons. by right.
  - by intros <-.
Qed.

Lemma removeBrick_owns elements h :
  owns_bricks h -> owns_bricks (after (removeBrick elements) h).
Proof.
  intros Ho. unfold after. rewrite removeBrick_run.
  apply (forEach_keeps removal owns_bricks); [|done].
  intros index h'. apply removal_owns.
Qed.

Lemma getView_owns h :
  owns_bricks h -> owns_bricks (after (_ ← getView; mret tt) h).
Proof.
  intros Ho. unfold after, mbind, Method_bind, bind. by rewrite getView_run.
Qed.

(** X17. The back references follow the structure: if no Brick is in
    the Pipe twice and every Brick of the Pipe has the Pipe in its pipe
    slot, this is so again after every call of a sequence that inserts,
    at any index, only distinct Bricks new to the Pipe, and removes
    whatever it likes, also when a removal throws. *)
Theorem pipe_owns_its_bricks (h : Heap V) (calls : list Call)
  (Howns : owns_bricks h)
  (Hnew : insertions_new calls h) :
  Forall owns_bricks (observations calls h).
Proof.
  revert h Howns Hnew. induction calls as [|c rest IH]; intros h Howns Hnew;
    [constructor|].
  destruct Hnew as [Hc Hrest]. simpl.
  assert (owns_bricks (after (perform c) h)) as Hafter.
  { destruct c as [index bricks|elements|]; simpl.
    - by apply insertBrick_owns.
    - by apply removeBrick_owns.
    - by apply getView_owns. }
  constructor; [done|]. by apply IH.
Qed.

Lemma removal_view_first index h :
  view_before_bricks (self h) -> view_before_bricks (self (removal index h).2).
Proof.
  intros Hv. unfold removal.
  destruct (get (_bricks (self h)) index) as [brick|]; [|done].
  unfold view_before_bricks. simpl. done.
Qed.

Lemma perform_view_first (c : Call) h :
  view_before_bricks (self h) -> view_before_bricks (self (after (perform c) h)).
Proof.
  intros Hv. destruct c as [index bricks|elements|]; simpl.
  - destruct bricks as [|b rest].
    + unfold after. rewrite insertBrick_run. simpl.
      by rewrite splice_nothing, with_bricks_same.
    + intros Hnone. unfold after in Hnone. rewrite insertBrick_run in Hnone.
      destruct (attach_all_view b rest
                  (mkHeap (this h)
                     (with_bricks (splice index 0 (b :: rest) (_bricks (self h)))
                        (self h))
                     (pipe_of h))) as [view Hview].
      cbn [snd] in Hnone. rewrite Hview in Hnone. discriminate Hnone.
  - unfold after. rewrite removeBrick_run.
    apply (forEach_keeps removal (fun h' => view_before_bricks (self h'))); [|done].
    intros i h'. apply removal_view_first.
  - unfold after, mbind, Method_bind, bind. rewrite getView_run.
    unfold view_before_bricks. simpl. done.
Qed.

(** X18. A Pipe that holds a Brick has a view: if a Pipe without a view
    holds no Brick, as a new Pipe does, this is so again after every
    call of any sequence of [insertBrick], [removeBrick] and [getView]
    calls. *)
Theorem bricks_come_with_view (h : Heap V) (calls : list Call)
  (Hfirst : view_before_bricks (self h)) :
  Forall (fun h' => view_before_bricks (self h')) (observations calls h).
Proof.
  revert h Hfirst. induction calls as [|c rest IH]; intros h Hfirst; [constructor|].
  simpl. constructor.
  - by apply perform_view_first.
  - by apply IH, perform_view_first.
Qed.

Lemma removal_keeps_titles (t : Ref) (title description : Value) index h :
  this h = t /\ _title (self h) = title /\ _description (self h) = description ->
  this (removal index h).2 = t
  /\ _title (self (removal index h).2) = title
  /\ _description (self (removal index h).2) = description.
Proof.
  intros Hk. unfold removal.
  by destruct (get (_bricks (self h)) index) as [brick|].
Qed.

(** X19. The structure calls do not touch the rest: after
    [insertBrick], [removeBrick] (also one that throws) or [getView],
    the title and the description are what they were, and the Pipe is
    at the same address. *)
Theorem structure_calls_keep_titles (h : Heap V) (c : Call) :
  this (after (perform c) h) = this h
  /\ _title (self (after (perform c) h)) = _title (self h)
  /\ _description (self (after (perform c) h)) = _description (self h).
Proof.
  destruct c as [index bricks|elements|]; simpl.
  - unfold after. rewrite insertBrick_run. simpl.
    rewrite attach_all_this. split; [done|].
    apply (attach_all_titles bricks
             (mkHeap (this h) (with_bricks _ (self h)) (pipe_of h))).
  - unfold after. rewrite removeBrick_run.
    apply (forEach_keeps removal
             (fun h' => this h' = this h
                        /\ _title (self h') = _title (self h)
                        /\ _description (self h') = _description (self h)));
      [|done].
    intros i h'. apply removal_keeps_titles.
  - unfold after, mbind, Method_bind, bind. by rewrite getView_run.
Qed.

Lemma splice_into_empty {A} (start : Z) (items : list A) :
  splice start 0 items [] = items.
Proof.
  rewrite splice_at_tail; [done|].
  unfold splice_start. simpl. destruct (Z.ltb_spec start 0); lia.
Qed.

(** X21. When [addBrick] appends: for distinct Bricks new to a Pipe
    without duplicates, the Bricks end up at the tail exactly when the
    Pipe was empty or no Brick is added; on an empty Pipe the brick
    sequence becomes the arguments, in their order. *)
Theorem addBrick_appends_iff (h : Heap V) (bricks : list Brick)
  (Hnew : NoDup (_bricks (self h) ++ bricks)) :
  (_bricks (self (after (addBrick bricks) h)) = _bricks (self h) ++ bricks
   <-> _bricks (self h) = [] \/ bricks = [])
  /\ (_bricks (self h) = [] ->
      _bricks (self (after (addBrick bricks) h)) = bricks).
Proof.
  unfold addBrick. rewrite insertBrick_bricks.
  remember (_bricks (self h)) as l eqn:Hl. clear Hl.
  destruct l as [|b0 l0 _] using rev_ind.
  { rewrite splice_into_empty. split; [|done]. split; auto. }
  rewrite splice_minus_one. split.
  - split.
    + intros Heq. right. rewrite <- app_assoc in Heq.
      apply app_inv_head in Heq.
      destruct bricks as [|b rest]; [done|]. simpl in Heq.
      injection Heq as Hb _. exfalso.
      apply NoDup_app in Hnew as (_ & Hdisjoint & _).
      apply (Hdisjoint b0).
      * apply elem_of_app. right. by apply list_elem_of_singleton.
      * apply elem_of_cons. left. congruence.
    + intros [Hempty| ->].
      * by apply app_eq_nil in Hempty as [_ ?].
      * by rewrite app_nil_r.
  - intros Hempty. by apply app_eq_nil in Hempty as [_ ?].
Qed.

Section FromNew.
Context `{!ViewLaws V}.

Lemma removal_on_empty index h :
  _bricks (self h) = [] ->
  removal index h
  = (inl (TypeError "Cannot read property 'setPipe' of undefined"), h).
Proof.
  intros He. unfold removal. rewrite He.
  assert (get (A:=Brick) [] index = None) as ->; [|done].
  apply get_None. unfold is_position. simpl. lia.
Qed.

Lemma perform_blank (c : Call) h :
  _view (self h) = None -> _bricks (self h) = [] ->
  match c with
  | CallInsertBrick index bricks => NoDup bricks
  | _ => True
  end ->
  blank_or_aligned (after (perform c) h).
Proof.
  intros Hv Hb Hc. destruct c as [index bricks|elements|]; simpl.
  - destruct bricks as [|b rest].
    + left. unfold after. rewrite insertBrick_run. simpl.
      by rewrite splice_nothing.
    + right. rewrite insertBrick_bricks, Hb, splice_into_empty. split; [|done].
      apply view_aligned_materialized. split.
      * unfold after. rewrite insertBrick_run. apply attach_all_view.
      * rewrite insertBrick_subviews, insertBrick_bricks, Hb, splice_into_empty.
        unfold materialized. by rewrite Hv, subviews_new.
  - left. unfold after. rewrite removeBrick_run.
    apply (forEach_keeps removal
             (fun h' => _view (self h') = None /\ _bricks (self h') = []));
      [|done].
    intros i h' [Hv' Hb']. by rewrite removal_on_empty.
  - right. unfold after, mbind, Method_bind, bind. rewrite getView_run. simpl.
    rewrite Hb. split; [|constructor].
    unfold view_aligned, aligned, materialized. simpl.
    by rewrite Hv, Hb, subviews_new.
Qed.

(** X22. From a new Pipe on, the view follows appended Bricks: starting
    with no view and no Bricks, after every call of a sequence in which
    every [insertBrick] appends distinct new Bricks, the Pipe either
    still has no view and no Bricks, or has a view whose child list is
    aligned with its brick sequence. *)
Theorem new_pipe_stays_aligned (h : Heap V) (calls : list Call)
  (Hview : _view (self h) = None)
  (Hbricks : _bricks (self h) = [])
  (Happend : insertions_append calls h) :
  Forall blank_or_aligned (observations calls h).
Proof.
  revert h Hview Hbricks Happend.
  induction calls as [|c rest IH]; intros h Hview Hbricks Happend; [constructor|].
  destruct Happend as [Hc Hrest]. simpl.
  assert (blank_or_aligned (after (perform c) h)) as Hafter.
  { apply perform_blank; [done|done|].
    destruct c as [index bricks|elements|]; [|done|done].
    destruct Hc as [_ Hn]. by rewrite Hbricks in Hn. }
  constructor; [done|].
  destruct Hafter as [[Hv Hb]|Haligned].
  - by apply IH.
  - eapply Forall_impl; [by apply observations_keep|].
    intros h' Hk. by right.
Qed.
End FromNew.

Section Failures.
Context {D : Type} `{BrickCodec D}.

Lemma extract_bricks_fails (good : list D) (bad : D) (rest : list D)
  (extracted : list Brick) (e : Exception) :
  extract_bricks good = inr extracted ->
  Brick_extract bad = inl e ->
  extract_bricks (good ++ bad :: rest) = inl e.
Proof.
  revert extracted. induction good as [|d more IH]; intros extracted Hgood Hbad.
  - simpl. by rewrite Hbad.
  - simpl in *. destruct (Brick_extract d) as [e'|brick]; [done|].
    destruct (extract_bricks more) as [e'|bricks'] eqn:Hmore; [done|].
    by rewrite (IH bricks').
Qed.

(** X20. How [Pipe.extract] fails on malformed data: when [bricks] is
    no array it throws the error of the class, and when a Brick of the
    array fails to extract it throws what the first such Brick throws,
    whatever follows it in the array. *)
Theorem extract_malformed (address : Ref) (data : PipeData D) :
  (bricks data = NotArray ->
   extract (V:=V) address data
   = inl (Error "Can't extract bricks from structured data."))
  /\ (forall good bad rest extracted e,
        bricks data = IsArray (good ++ bad :: rest) ->
        extract_bricks good = inr extracted ->
        Brick_extract bad = inl e ->
        extract (V:=V) address data = inl e).
Proof.
  split.
  - intros Hb. unfold extract. by rewrite Hb.
  - intros good bad rest extracted e Hb Hgood Hbad. unfold extract.
    by rewrite Hb, (extract_bricks_fails good bad rest extracted e).
Qed.
End Failures.
End Extras.

Lemma nothing_to_do_witness :
  removeBrick [ElBrick 9%nat; ElIndex (-1); ElBrick 7%nat] three_bricks
  = (inr tt, three_bricks).
Proof.
  apply (nothing_to_do three_bricks 0 [ElBrick 9%nat; ElIndex (-1); ElBrick 7%nat]).
  repeat constructor; simpl; apply (bool_decide_unpack _); vm_compute; exact I.
Defined.

Lemma removeBrick_first_occurrence_witness :
  _bricks (self (after (removeBrick [ElBrick 2%nat]) three_bricks)) = [1; 3]%nat.
Proof.
  apply (removeBrick_first_occurrence three_bricks [1%nat] [3%nat] 2%nat eq_refl).
  apply (bool_decide_unpack _). vm_compute. exact I.
Defined.

Lemma removeBrick_count_witness :
  length (_bricks (self (after (removeBrick [ElIndex 1; ElIndex 1; ElIndex (-1)])
                               three_bricks))) = 1%nat.
Proof.
  pose proof (removeBrick_count three_bricks [ElIndex 1; ElIndex 1; ElIndex (-1)]
                eq_refl) as Hcount.
  assert (length (targets (_bricks (self three_bricks))
                    [ElIndex 1; ElIndex 1; ElIndex (-1)]) = 2%nat) as Htargets
    by reflexivity.
  rewrite Htargets in Hcount.
  change (length (_bricks (self three_bricks))) with 3%nat in Hcount.
  lia.
Defined.

Lemma removeBrick_releases_witness :
  pipe_of (after (removeBrick [ElIndex 0; ElIndex (-2)])
                 (after (insertBrick 0 [1; 2]%nat) empty_pipe)) !! 1%nat = None.
Proof.
  apply (removeBrick_releases (after (insertBrick 0 [1; 2]%nat) empty_pipe)
           [ElIndex 0; ElIndex (-2)]).
  - apply (bool_decide_unpack _). vm_compute. exact I.
  - apply (bool_decide_unpack _). vm_compute. exact I.
Defined.

Lemma removeBrick_references_witness :
  _bricks (self (after (removeBrick (ElBrick <$> [3; 1]%nat)) three_bricks))
  = [2%nat].
Proof.
  destruct (removeBrick_references three_bricks [3; 1]%nat) as (_ & -> & _).
  - apply (bool_decide_unpack _). vm_compute. exact I.
  - apply (bool_decide_unpack _). vm_compute. exact I.
  - intros brick Hin. apply (bool_decide_unpack _).
    apply elem_of_cons in Hin as [->|Hin]; [vm_compute; exact I|].
    apply list_elem_of_singleton in Hin as ->. vm_compute. exact I.
  - reflexivity.
Defined.

Lemma insert_then_remove_witness :
  _bricks (self (after (removeBrick (ElBrick <$> [7; 8]%nat))
                       (after (insertBrick 1 [7; 8]%nat) three_bricks)))
  = [1; 2; 3]%nat.
Proof.
  apply (insert_then_remove three_bricks 1 [7; 8]%nat).
  apply (bool_decide_unpack _). vm_compute. exact I.
Defined.

Lemma pipe_owns_its_bricks_witness :
  Forall owns_bricks
    (observations
       [CallInsertBrick 0 [1; 2]%nat; CallInsertBrick 1 [3%nat];
        CallRemoveBrick [ElBrick 2%nat; ElIndex 5]; CallGetView;
        CallRemoveBrick [ElBrick 1%nat]; CallInsertBrick (-1) [1%nat]]
       empty_pipe).
Proof.
  apply (pipe_owns_its_bricks empty_pipe).
  - split; [constructor|]. intros brick Hin. by apply elem_of_nil in Hin.
  - repeat split; apply (bool_decide_unpack _); vm_compute; exact I.
Defined.

Lemma bricks_come_with_view_witness :
  Forall (fun h' => view_before_bricks (self h'))
    (observations
       [CallRemoveBrick [ElIndex 0]; CallInsertBrick 3 []; CallInsertBrick 0 [1%nat];
        CallRemoveBrick [ElBrick 1%nat]]
       empty_pipe).
Proof.
  apply (bricks_come_with_view empty_pipe). intros _. reflexivity.
Defined.

Lemma addBrick_appends_iff_witness :
  _bricks (self (after (addBrick [1; 2]%nat) empty_pipe)) = [1; 2]%nat.
Proof.
  apply (addBrick_appends_iff empty_pipe [1; 2]%nat).
  - apply (bool_decide_unpack _). vm_compute. exact I.
  - reflexivity.
Defined.

Lemma new_pipe_stays_aligned_witness :
  Forall blank_or_aligned
    (observations
       [CallRemoveBrick [ElIndex 0]; CallInsertBrick (-1) [1; 2]%nat;
        CallInsertBrick 2 [3%nat]; CallRemoveBrick [ElBrick 2%nat]]
       empty_pipe).
Proof.
  apply (new_pipe_stays_aligned (ViewLaws0:=ListView_laws) empty_pipe).
  - reflexivity.
  - reflexivity.
  - repeat split; apply (bool_decide_unpack _); vm_compute; exact I.
Defined.

Lemma extract_malformed_witness :
  extract (V:=ListView) 5%nat (mkPipeData (D:=option nat) VNull VNull NotArray)
  = inl (Error "Can't extract bricks from structured data.")
  /\ extract (V:=ListView) 5%nat
       (mkPipeData VNull VNull (IsArray [Some 1%nat; None; Some 2%nat]))
     = inl (Error "Can't extract brick from structured data.").
Proof.
  split.
  - apply (extract_malformed (V:=ListView) 5%nat
             (mkPipeData (D:=option nat) VNull VNull NotArray)).
    reflexivity.
  - apply (proj2 (extract_malformed (V:=ListView) 5%nat
                    (mkPipeData VNull VNull (IsArray [Some 1%nat; None; Some 2%nat])))
             [Some 1%nat] None [Some 2%nat] [1%nat]); reflexivity.
Defined.
End PipeExtras.
